(** * pyls.utils: z-scoring, normalisation, cross-covariance, dummy coding

    A shallow embedding of [pyls/utils.py] and the verification of its
    numerical contracts.

    Arrays are modelled by value: a 2-D array is its number of columns
    together with the list of its rows (so that an array with no rows still
    has a second dimension, as a NumPy array of shape (0, J) has), a 1-D
    array is a list.  Floating point numbers are the real numbers, and
    what is proved of mean, standard deviation and norm is proved of
    exact arithmetic; [zscore] and [normalize] are stated a second time
    over any arithmetic of the entries ([Module Rounded]), and what is
    proved there holds of double precision too.  NumPy operations that can
    raise (index assignment, boolean-mask indexing, matrix product,
    stacking) return a [result]; the exception propagates through [bind] as
    it does through the Python call stack.

    [Module Store] states the functions a second time over an explicit
    store of array objects, where index assignment overwrites the object
    it is applied to; the two versions are proved to agree, and the store
    version is the one the frame property is proved of. *)

From Stdlib Require Import List ZArith Reals Lra Lia Bool Arith Sorted.
From Stdlib Require String.
From Stdlib Require Floats.
Import ListNotations.

Set Implicit Arguments.

(** ** Exceptions *)

Inductive exn : Type :=
| ValueError   (* operands could not be broadcast, matmul mismatch, empty stack *)
| IndexError   (* index out of bounds, boolean index of the wrong length *)
| AxisError    (* axis out of bounds for the array *)
| TypeError.   (* an object of the wrong kind *)

Inductive result (A : Type) : Type :=
| Ok (a : A)
| Raise (e : exn).

Arguments Ok {A} a.
Arguments Raise {A} e.

Definition bind {A B} (r : result A) (k : A -> result B) : result B :=
  match r with
  | Ok a => k a
  | Raise e => Raise e
  end.

Declare Scope result_scope.
Notation "x <- e ;; k" := (bind e (fun x => k))
  (at level 61, e at next level, right associativity) : result_scope.
Notation "' p <- e ;; k" := (bind e (fun x => match x with p => k end))
  (at level 61, p pattern, e at next level, right associativity) : result_scope.
Open Scope result_scope.

Definition raises {A} (r : result A) : Prop := exists e, r = Raise e.
Definition returns {A} (r : result A) : Prop := exists a, r = Ok a.

(** The exceptions by which the array library rejects operands whose
    shapes do not fit. *)
Definition shape_error {A} (r : result A) : Prop :=
  r = Raise ValueError \/ r = Raise IndexError.

(** [[f x for x in xs]]: the first exception ends the comprehension. *)
Fixpoint mapM {A B} (f : A -> result B) (xs : list A) : result (list B) :=
  match xs with
  | [] => Ok []
  | x :: xs' => y <- f x ;; ys <- mapM f xs' ;; Ok (y :: ys)
  end.

(** ** Arrays *)

Record matrix (T : Type) : Type := Mat { ncols : nat; rows : list (list T) }.

Arguments Mat {T} ncols rows.

Definition nrows {T} (A : matrix T) : nat := length (rows A).

(** [A] is a well-formed array of shape (N, J). *)
Definition is_matrix {T} (N J : nat) (A : matrix T) : Prop :=
  nrows A = N /\ ncols A = J /\ Forall (fun r => length r = J) (rows A).

Definition col {T} (d : T) (j : nat) (A : matrix T) : list T :=
  map (fun r => nth j r d) (rows A).

Definition get {T} (d : T) (A : matrix T) (i j : nat) : T :=
  nth j (nth i (rows A) []) d.

(** [A.T] *)
Definition transpose {T} (d : T) (A : matrix T) : matrix T :=
  Mat (nrows A) (map (fun j => col d j A) (seq 0 (ncols A))).

(** A 1-D operand takes part in a 2-D operation as a single row. *)
Definition atleast_2d {T} (v : list T) : matrix T := Mat (length v) [v].

(** ** Real-number primitives *)

Open Scope R_scope.

Definition Reqb (x y : R) : bool := if Req_dec_T x y then true else false.

Definition Rsum (v : list R) : R := fold_right Rplus 0 v.

(** [v.mean()]; on an empty [v] NumPy yields nan, which cannot be compared
    equal to anything; no entry of any result below depends on that value. *)
Definition mean (v : list R) : R := Rsum v / INR (length v).

(** [v.std()]: population standard deviation,
    [sqrt(mean(abs(v - v.mean())**2))]. *)
Definition std (v : list R) : R :=
  sqrt (mean (map (fun x => (x - mean v) * (x - mean v)) v)).

(** [np.linalg.norm(v)]: [sqrt(sum(v * v))]. *)
Definition norm (v : list R) : R := sqrt (Rsum (map (fun x => x * x) v)).

Definition mean_axis0 (A : matrix R) : list R :=
  map (fun j => mean (col 0 j A)) (seq 0 (ncols A)).

Definition std_axis0 (A : matrix R) : list R :=
  map (fun j => std (col 0 j A)) (seq 0 (ncols A)).

(** [np.where(v == 0)[0]] on a 1-D array. *)
Definition where_eq0 (v : list R) : list nat :=
  filter (fun j => Reqb (nth j v 0) 0) (seq 0 (length v)).

(** [np.where(A == 0)] on a 2-D array: the (row, column) pairs in row-major
    order. *)
Definition where_eq0_2d (A : matrix R) : list (nat * nat) :=
  flat_map (fun i =>
              map (fun j => (i, j))
                  (filter (fun j => Reqb (get 0 A i j) 0) (seq 0 (ncols A))))
           (seq 0 (nrows A)).

(** ** Index assignment *)

Fixpoint update {T} (l : list T) (i : nat) (x : T) : list T :=
  match l, i with
  | [], _ => []
  | _ :: t, O => x :: t
  | h :: t, S i' => h :: update t i' x
  end.

Definition update_all {T} (l : list T) (idxs : list nat) (x : T) : list T :=
  fold_left (fun acc i => update acc i x) idxs l.

(** [v[idxs] = x] on a 1-D array. *)
Definition setitem {T} (v : list T) (idxs : list nat) (x : T) : result (list T) :=
  if forallb (fun i => i <? length v)%nat idxs
  then Ok (update_all v idxs x)
  else Raise IndexError.

(** [A[:, idxs] = x] *)
Definition setitem_cols {T} (A : matrix T) (idxs : list nat) (x : T)
  : result (matrix T) :=
  if forallb (fun j => j <? ncols A)%nat idxs
  then Ok (Mat (ncols A) (map (fun r => update_all r idxs x) (rows A)))
  else Raise IndexError.

Definition update2 {T} (rs : list (list T)) (ij : nat * nat) (x : T)
  : list (list T) :=
  update rs (fst ij) (update (nth (fst ij) rs []) (snd ij) x).

(** [A[(is, js)] = x] with the pair of index arrays that [np.where] returns. *)
Definition setitem_pairs {T} (A : matrix T) (idxs : list (nat * nat)) (x : T)
  : result (matrix T) :=
  if forallb (fun ij => (fst ij <? nrows A) && (snd ij <? ncols A))%nat idxs
  then Ok (Mat (ncols A) (fold_left (fun rs ij => update2 rs ij x) idxs (rows A)))
  else Raise IndexError.

(** ** Broadcasting *)

Definition bdim (a b : nat) : result nat :=
  if (a =? b)%nat then Ok a
  else if (a =? 1)%nat then Ok b
  else if (b =? 1)%nat then Ok a
  else Raise ValueError.

Definition bget (A : matrix R) (i j : nat) : R :=
  get 0 A (if (nrows A =? 1)%nat then O else i)
          (if (ncols A =? 1)%nat then O else j).

(** [A op B] elementwise, for 2-D operands, with NumPy's broadcasting rule:
    along each axis the sizes are equal or one of them is 1. *)
Definition broadcast2 (op : R -> R -> R) (A B : matrix R) : result (matrix R) :=
  n <- bdim (nrows A) (nrows B) ;;
  m <- bdim (ncols A) (ncols B) ;;
  Ok (Mat m (map (fun i => map (fun j => op (bget A i j) (bget B i j)) (seq 0 m))
                 (seq 0 n))).

(** ** zscore *)

Definition zscore (X : matrix R) : result (matrix R) :=
  let arr := X in
  let avg := mean_axis0 arr in
  let stdev := std_axis0 arr in
  let zero_items := where_eq0 stdev in
  '(avg, stdev) <-
     (if (0 <? length zero_items)%nat
      then avg' <- setitem avg zero_items 0 ;;
           stdev' <- setitem stdev zero_items 1 ;;
           Ok (avg', stdev')
      else Ok (avg, stdev)) ;;
  centred <- broadcast2 Rminus arr (atleast_2d avg) ;;
  zarr <- broadcast2 Rdiv centred (atleast_2d stdev) ;;
  setitem_cols zarr zero_items 0.

(** ** normalize *)

(** [np.linalg.norm(A, axis=axis, keepdims=True)]: the reduced axis is kept
    with size 1.  Negative axes count from the last one. *)
Definition norm_keepdims (A : matrix R) (axis : Z) : result (matrix R) :=
  if ((axis =? 0) || (axis =? -2))%Z
  then Ok (Mat (ncols A) [map (fun j => norm (col 0 j A)) (seq 0 (ncols A))])
  else if ((axis =? 1) || (axis =? -1))%Z
  then Ok (Mat 1 (map (fun r => [norm r]) (rows A)))
  else Raise AxisError.

Definition normalize (X : matrix R) (axis : Z) : result (matrix R) :=
  let normed := X in
  normal_base <- norm_keepdims normed axis ;;
  (* avoid DivideByZero errors *)
  let zero_items := where_eq0_2d normal_base in
  normal_base <- setitem_pairs normal_base zero_items 1 ;;
  (* normalize and re-set zero_items to 0 *)
  normed <- broadcast2 Rdiv normed normal_base ;;
  setitem_pairs normed zero_items 0.

(** ** _compute_xcorr and xcorr *)

Definition dot (u v : list R) : R :=
  Rsum (map (fun p => fst p * snd p) (combine u v)).

(** [A @ B] *)
Definition matmul (A B : matrix R) : result (matrix R) :=
  if (ncols A =? nrows B)%nat
  then Ok (Mat (ncols B)
               (map (fun r => map (fun j => dot r (col 0 j B)) (seq 0 (ncols B)))
                    (rows A)))
  else Raise ValueError.

(** [A / c] for a Python number [c].  When [c] is zero NumPy warns and
    fills the result with nan or inf; it does not raise.  Here the entries
    are then [x / 0], about which nothing is proved. *)
Definition div_scalar (A : matrix R) (c : R) : matrix R :=
  Mat (ncols A) (map (map (fun x => x / c)) (rows A)).

Definition _compute_xcorr (X Y : matrix R) : result (matrix R) :=
  zx <- zscore X ;;
  Xnz <- normalize zx 0 ;;
  zy <- zscore Y ;;
  Ynz <- normalize zy 0 ;;
  prod <- matmul (transpose 0 Ynz) Xnz ;;
  let xprod := div_scalar prod (IZR (Z.of_nat (nrows Xnz) - 1)) in
  Ok xprod.

(** Group labels are integers. *)
Abbreviation label := Z (only parsing).

Fixpoint insert_unique (x : label) (l : list label) : list label :=
  match l with
  | [] => [x]
  | y :: t =>
      if (x <? y)%Z then x :: l
      else if (x =? y)%Z then l
      else y :: insert_unique x t
  end.

(** [np.unique(g)]: the sorted distinct values of [g]. *)
Definition unique (g : list label) : list label :=
  fold_right insert_unique [] g.

(** [g == grp] *)
Definition eq_mask (g : list label) (grp : label) : list bool :=
  map (fun l => (l =? grp)%Z) g.

(** [A[mask]] with a boolean mask over the rows: the mask must be as long
    as the first axis. *)
Definition getitem_mask {T} (A : matrix T) (mask : list bool)
  : result (matrix T) :=
  if (length mask =? nrows A)%nat
  then Ok (Mat (ncols A) (map snd (filter fst (combine mask (rows A)))))
  else Raise IndexError.

(** [np.row_stack(blocks)]: at least one block, all of the same width. *)
Definition row_stack {T} (blocks : list (matrix T)) : result (matrix T) :=
  match blocks with
  | [] => Raise ValueError
  | b :: bs =>
      if forallb (fun b' => ncols b' =? ncols b)%nat bs
      then Ok (Mat (ncols b) (flat_map (@rows T) blocks))
      else Raise ValueError
  end.

Definition xcorr (X Y : matrix R) (grouping : option (list label))
  : result (matrix R) :=
  match grouping with
  | None => _compute_xcorr X Y
  | Some grouping =>
      blocks <- mapM (fun grp =>
                        Xg <- getitem_mask X (eq_mask grouping grp) ;;
                        Yg <- getitem_mask Y (eq_mask grouping grp) ;;
                        _compute_xcorr Xg Yg)
                     (unique grouping) ;;
      row_stack blocks
  end.

(** ** dummy_code and reverse_dummy_code *)

(** [mask.astype(int)] *)
Definition astype_int (mask : list bool) : list Z :=
  map (fun b : bool => if b then 1%Z else 0%Z) mask.

(** [np.column_stack(cols)] of 1-D arrays: at least one, all of the same
    length; each becomes a column. *)
Definition column_stack {T} (d : T) (cols : list (list T)) : result (matrix T) :=
  match cols with
  | [] => Raise ValueError
  | c :: cs =>
      if forallb (fun c' => length c' =? length c)%nat cs
      then Ok (transpose d (Mat (length c) cols))
      else Raise ValueError
  end.

Definition dummy_code (grouping : list label) : result (matrix Z) :=
  let groups := unique grouping in
  let Y := column_stack 0%Z
             (map (fun grp => astype_int (eq_mask grouping grp)) groups) in
  Y.

(** The element types [reverse_dummy_code] is used at: what it needs of
    them is a zero, addition, and the product with a Python integer. *)
Class Dtype (T : Type) : Type :=
  { dzero : T; dadd : T -> T -> T; dscale : T -> Z -> T }.

#[export] Instance Dtype_int : Dtype Z :=
  {| dzero := 0%Z; dadd := Z.add; dscale := Z.mul |}.

#[export] Instance Dtype_float : Dtype R :=
  {| dzero := 0; dadd := Rplus; dscale := fun x n => x * IZR n |}.

(** [enumerate(l, 1)] *)
Definition enumerate1 {A} (l : list A) : list (Z * A) :=
  combine (map Z.of_nat (seq 1 (length l))) l.

(** [A.sum(0)] *)
Definition sum_axis0 {T} `{Dtype T} (A : matrix T) : list T :=
  map (fun j => fold_left dadd (col dzero j A) dzero) (seq 0 (ncols A)).

Definition reverse_dummy_code {T} `{Dtype T} (Y : matrix T) : result (list T) :=
  stacked <- row_stack
               (map (fun p => atleast_2d (map (fun y => dscale y (fst p)) (snd p)))
                    (enumerate1 (rows (transpose dzero Y)))) ;;
  let grouping := sum_axis0 stacked in
  Ok grouping.

(** ** get_seed *)

(** The Python values [get_seed] tells apart.  A generator instance is an
    object with an identity; [bool] is a subclass of [int], so [True] and
    [False] are [PyInt 1] and [PyInt 0]. *)
Inductive pyobj : Type :=
| PyNone
| PyInt (n : Z)
| PyFloat (x : R)
| PyStr (s : String.string)
| PyRandomState (id : nat).

(** What [get_seed] returns: the module [np.random] itself, or a
    [RandomState] instance. *)
Inductive rng : Type :=
| NpRandom
| Instance (id : nat).

(** The [RandomState] instances constructed so far, each with the seed it
    was constructed from; the identity of an instance is its position. *)
Definition rng_store : Type := list Z.

(** [np.random.RandomState(seed)] with an integer seed: the seed must be
    between 0 and 2**32 - 1. *)
Definition RandomState (seed : Z) (st : rng_store) : result (rng * rng_store) :=
  if ((0 <=? seed) && (seed <=? 2 ^ 32 - 1))%Z
  then Ok (Instance (length st), st ++ [seed])
  else Raise ValueError.

Definition is_None (o : pyobj) : bool :=
  match o with PyNone => true | _ => false end.

Definition isinstance_int (o : pyobj) : option Z :=
  match o with PyInt n => Some n | _ => None end.

Definition isinstance_RandomState (o : pyobj) : option nat :=
  match o with PyRandomState id => Some id | _ => None end.

Definition get_seed (seed : pyobj) (st : rng_store) : result (rng * rng_store) :=
  if negb (is_None seed) then
    match isinstance_int seed with
    | Some n => RandomState n st
    | None =>
        match isinstance_RandomState seed with
        | Some id => Ok (Instance id, st)
        | None => Ok (NpRandom, st)
        end
    end
  else Ok (NpRandom, st).

(** ** The functions over a store of array objects

    Every array the module's functions receive, mutate or return is an
    object in the store, named by a reference; a call gets references and
    returns a reference.  [np.array(X)] and every arithmetic operation
    allocate a new object; index assignment overwrites the object it is
    applied to; [A.T] and [A.shape] read the object of [A] and allocate
    nothing.  Boolean masks, index arrays and the unique labels, which are
    only read where they were made, are kept as values.  An exception
    leaves the store as it was when it was raised. *)

Module Store.

Inductive cell : Type :=
| F1 (v : list R)
| F2 (A : matrix R)
| I1 (v : list Z)
| I2 (A : matrix Z).

Definition ref : Type := nat.
Definition store : Type := list cell.

Definition M (A : Type) : Type := store -> result A * store.

Definition ret {A} (a : A) : M A := fun s => (Ok a, s).

Definition bind {A B} (m : M A) (k : A -> M B) : M B :=
  fun s =>
    match m s with
    | (Ok a, s') => k a s'
    | (Raise e, s') => (Raise e, s')
    end.

Definition lift {A} (r : result A) : M A := fun s => (r, s).

Declare Scope store_scope.
Notation "x <- e ;; k" := (bind e (fun x => k))
  (at level 61, e at next level, right associativity) : store_scope.
Local Open Scope store_scope.

Definition alloc (c : cell) : M ref := fun s => (Ok (length s), s ++ [c]).

Definition read (l : ref) : M cell :=
  fun s =>
    match nth_error s l with
    | Some c => (Ok c, s)
    | None => (Raise TypeError, s)
    end.

Definition write (l : ref) (c : cell) : M unit :=
  fun s => if (l <? length s)%nat then (Ok tt, update s l c)
           else (Raise TypeError, s).

Fixpoint mapM {A B} (f : A -> M B) (xs : list A) : M (list B) :=
  match xs with
  | [] => ret []
  | x :: xs' => y <- f x ;; ys <- mapM f xs' ;; ret (y :: ys)
  end.

Definition as_F1 (c : cell) : result (list R) :=
  match c with F1 v => Ok v | _ => Raise TypeError end.
Definition as_F2 (c : cell) : result (matrix R) :=
  match c with F2 A => Ok A | _ => Raise TypeError end.
Definition as_I1 (c : cell) : result (list Z) :=
  match c with I1 v => Ok v | _ => Raise TypeError end.
Definition as_I2 (c : cell) : result (matrix Z) :=
  match c with I2 A => Ok A | _ => Raise TypeError end.
(** a float operand of an elementwise operation, 1-D or 2-D *)
Definition as_operand (c : cell) : result (matrix R) :=
  match c with
  | F1 v => Ok (atleast_2d v)
  | F2 A => Ok A
  | _ => Raise TypeError
  end.

Definition read_F1 (l : ref) : M (list R) := c <- read l ;; lift (as_F1 c).
Definition read_F2 (l : ref) : M (matrix R) := c <- read l ;; lift (as_F2 c).
Definition read_I1 (l : ref) : M (list Z) := c <- read l ;; lift (as_I1 c).
Definition read_I2 (l : ref) : M (matrix Z) := c <- read l ;; lift (as_I2 c).
Definition read_operand (l : ref) : M (matrix R) :=
  c <- read l ;; lift (as_operand c).

(** [np.array(X)]: a copy *)
Definition np_array (X : ref) : M ref := A <- read_F2 X ;; alloc (F2 A).

Definition mean0 (arr : ref) : M ref :=
  A <- read_F2 arr ;; alloc (F1 (mean_axis0 A)).

Definition std0 (arr : ref) : M ref :=
  A <- read_F2 arr ;; alloc (F1 (std_axis0 A)).

Definition where1 (v : ref) : M (list nat) :=
  a <- read_F1 v ;; ret (where_eq0 a).

Definition where2 (A : ref) : M (list (nat * nat)) :=
  a <- read_F2 A ;; ret (where_eq0_2d a).

(** [v[idxs] = x]: in place *)
Definition setitem (v : ref) (idxs : list nat) (x : R) : M unit :=
  a <- read_F1 v ;;
  a' <- lift (setitem a idxs x) ;;
  write v (F1 a').

(** [A[:, idxs] = x]: in place *)
Definition setitem_cols (A : ref) (idxs : list nat) (x : R) : M unit :=
  a <- read_F2 A ;;
  a' <- lift (setitem_cols a idxs x) ;;
  write A (F2 a').

(** [A[(is, js)] = x]: in place *)
Definition setitem_pairs (A : ref) (idxs : list (nat * nat)) (x : R) : M unit :=
  a <- read_F2 A ;;
  a' <- lift (setitem_pairs a idxs x) ;;
  write A (F2 a').

(** [A op B]: a new array *)
Definition binop (op : R -> R -> R) (A B : ref) : M ref :=
  a <- read_operand A ;;
  b <- read_operand B ;;
  c <- lift (broadcast2 op a b) ;;
  alloc (F2 c).

Definition zscore (X : ref) : M ref :=
  arr <- np_array X ;;
  avg <- mean0 arr ;;
  stdev <- std0 arr ;;
  zero_items <- where1 stdev ;;
  _ <- (if (0 <? length zero_items)%nat
        then _ <- setitem avg zero_items 0 ;; setitem stdev zero_items 1
        else ret tt) ;;
  centred <- binop Rminus arr avg ;;
  zarr <- binop Rdiv centred stdev ;;
  _ <- setitem_cols zarr zero_items 0 ;;
  ret zarr.

Definition linalg_norm (A : ref) (axis : Z) : M ref :=
  a <- read_F2 A ;;
  n <- lift (norm_keepdims a axis) ;;
  alloc (F2 n).

Definition normalize (X : ref) (axis : Z) : M ref :=
  normed <- np_array X ;;
  normal_base <- linalg_norm normed axis ;;
  zero_items <- where2 normal_base ;;
  _ <- setitem_pairs normal_base zero_items 1 ;;
  normed <- binop Rdiv normed normal_base ;;
  _ <- setitem_pairs normed zero_items 0 ;;
  ret normed.

(** [A.T @ B]: the transpose is a view of [A] *)
Definition matmul_T (A B : ref) : M ref :=
  a <- read_F2 A ;;
  b <- read_F2 B ;;
  c <- lift (matmul (transpose 0 a) b) ;;
  alloc (F2 c).

Definition shape0 (A : ref) : M nat := a <- read_F2 A ;; ret (nrows a).

Definition true_divide (A : ref) (c : R) : M ref :=
  a <- read_F2 A ;; alloc (F2 (div_scalar a c)).

Definition _compute_xcorr (X Y : ref) : M ref :=
  zx <- zscore X ;;
  Xnz <- normalize zx 0 ;;
  zy <- zscore Y ;;
  Ynz <- normalize zy 0 ;;
  prod <- matmul_T Ynz Xnz ;;
  n <- shape0 Xnz ;;
  true_divide prod (IZR (Z.of_nat n - 1)).

Definition np_unique (g : ref) : M (list label) :=
  a <- read_I1 g ;; ret (unique a).

Definition eq_scalar (g : ref) (grp : label) : M (list bool) :=
  a <- read_I1 g ;; ret (eq_mask a grp).

(** [A[mask]]: boolean indexing copies the selected rows *)
Definition getitem_mask (A : ref) (mask : list bool) : M ref :=
  a <- read_F2 A ;;
  b <- lift (getitem_mask a mask) ;;
  alloc (F2 b).

(** [np.row_stack] of 1-D integer arrays *)
Definition row_stack_1d (vs : list ref) : M ref :=
  rs <- mapM read_I1 vs ;;
  r <- lift (row_stack (map (@atleast_2d Z) rs)) ;;
  alloc (I2 r).

Definition row_stack (blocks : list ref) : M ref :=
  bs <- mapM read_F2 blocks ;;
  r <- lift (row_stack bs) ;;
  alloc (F2 r).

Definition xcorr (X Y : ref) (grouping : option ref) : M ref :=
  match grouping with
  | None => _compute_xcorr X Y
  | Some grouping =>
      groups <- np_unique grouping ;;
      blocks <- mapM (fun grp =>
                        mask <- eq_scalar grouping grp ;;
                        Xg <- getitem_mask X mask ;;
                        mask <- eq_scalar grouping grp ;;
                        Yg <- getitem_mask Y mask ;;
                        _compute_xcorr Xg Yg)
                     groups ;;
      row_stack blocks
  end.

Definition column_stack (cols : list ref) : M ref :=
  cs <- mapM read_I1 cols ;;
  r <- lift (column_stack 0%Z cs) ;;
  alloc (I2 r).

Definition dummy_code (grouping : ref) : M ref :=
  groups <- np_unique grouping ;;
  cols <- mapM (fun grp =>
                  mask <- eq_scalar grouping grp ;;
                  alloc (I1 (astype_int mask)))
               groups ;;
  column_stack cols.

Definition sum0 (A : ref) : M ref :=
  a <- read_I2 A ;; alloc (I1 (sum_axis0 a)).

(** [Y.T], and the rows it is iterated over, are views of [Y]; each
    [grp * n] is a new array. *)
Definition reverse_dummy_code (Y : ref) : M ref :=
  y <- read_I2 Y ;;
  scaled <- mapM (fun p => alloc (I1 (map (fun v => dscale v (fst p)) (snd p))))
                 (enumerate1 (rows (transpose 0%Z y))) ;;
  stacked <- row_stack_1d scaled ;;
  sum0 stacked.

(** The objects of [s] are still in [s'], with the values they had. *)
Definition unchanged (s s' : store) : Prop :=
  forall l, (l < length s)%nat -> nth_error s' l = nth_error s l.

(** [s] is [s0] with only new objects added. *)
Definition extends (s0 s : store) : Prop :=
  (length s0 <= length s)%nat /\ unchanged s0 s.

(** Started in any store that extends [s0], the computation [m] ends in a
    store that extends [s0], whether it returns or raises; what it returns
    satisfies [Q]. *)
Definition preserves {A} (s0 : store) (m : M A) (Q : A -> Prop) : Prop :=
  forall s, extends s0 s ->
            extends s0 (snd (m s)) /\ forall a, fst (m s) = Ok a -> Q a.

(** A reference to an object that is not in [s0]. *)
Definition fresh (s0 : store) (l : ref) : Prop := (length s0 <= l)%nat.

(** [s'] is [s] with new objects after it. *)
Definition grows (s s' : store) : Prop := exists new, s' = s ++ new.

(** The outcome [out] of a computation started in [s] is what the by-value
    result [v] says: when [v] is a value, [out] is a reference to an
    object with that value ([mk] says of which kind); when [v] is an
    exception, [out] is that exception.  Either way the store has only
    grown. *)
Definition agrees {V} (out : result ref * store) (mk : V -> cell)
           (v : result V) (s : store) : Prop :=
  match v with
  | Ok z => exists r s', out = (Ok r, s') /\ grows s s'
                         /\ nth_error s' r = Some (mk z)
  | Raise e => exists s', out = (Raise e, s') /\ grows s s'
  end.

(** The same for a comprehension, which returns a list of references. *)
Definition agrees_list {V} (out : result (list ref) * store) (mk : V -> cell)
           (v : result (list V)) (s : store) : Prop :=
  match v with
  | Ok zs => exists rs s', out = (Ok rs, s') /\ grows s s'
                           /\ Forall2 (fun r z => nth_error s' r = Some (mk z))
                                      rs zs
  | Raise e => exists s', out = (Raise e, s') /\ grows s s'
  end.

Definition computes {V} (m : M ref) (mk : V -> cell) (v : result V)
           (s : store) : Prop :=
  agrees (m s) mk v s.

End Store.

(** ** zscore and normalize over any arithmetic of the entries

    The functions above compute with real numbers, where no operation
    rounds and the quotient by zero is a number like any other.  Here the
    arithmetic is a parameter: the entries are of a type [F] that has the
    operations the two functions apply to them, and nothing is assumed
    of how these round, overflow, or treat a zero divisor.  What is
    proved of the functions below holds of the program whatever its
    floating point operations return.  [Arith_real] is the arithmetic of
    the real numbers, at which the functions return what the ones above
    return; [Arith_binary64] is that of IEEE 754 double precision. *)

Class Arith (F : Type) : Type := {
  fzero : F;                  (* the literal 0 *)
  fone : F;                   (* the literal 1 *)
  fsub : F -> F -> F;         (* x - y *)
  fdiv : F -> F -> F;         (* x / y *)
  fmean : list F -> F;        (* v.mean() *)
  fstd : list F -> F;         (* v.std() *)
  fnorm : list F -> F;        (* np.linalg.norm(v) *)
  feq0 : F -> bool;           (* x == 0 *)
  fisfinite : F -> bool;      (* np.isfinite(x): neither nan nor an infinity *)
  fisfinite_zero : fisfinite fzero = true;
  feq0_one : feq0 fone = false
}.

(** The array primitives and the two functions, as above, with the
    operations of [F] in the place of those of the real numbers. *)
Module Rounded.
Section Functions.
Context {F : Type} `{Arith F}.

Definition mean_axis0 (A : matrix F) : list F :=
  map (fun j => fmean (col fzero j A)) (seq 0 (ncols A)).

Definition std_axis0 (A : matrix F) : list F :=
  map (fun j => fstd (col fzero j A)) (seq 0 (ncols A)).

Definition where_eq0 (v : list F) : list nat :=
  filter (fun j => feq0 (nth j v fzero)) (seq 0 (length v)).

Definition where_eq0_2d (A : matrix F) : list (nat * nat) :=
  flat_map (fun i =>
              map (fun j => (i, j))
                  (filter (fun j => feq0 (get fzero A i j)) (seq 0 (ncols A))))
           (seq 0 (nrows A)).

Definition bget (A : matrix F) (i j : nat) : F :=
  get fzero A (if (nrows A =? 1)%nat then O else i)
              (if (ncols A =? 1)%nat then O else j).

Definition broadcast2 (op : F -> F -> F) (A B : matrix F) : result (matrix F) :=
  n <- bdim (nrows A) (nrows B) ;;
  m <- bdim (ncols A) (ncols B) ;;
  Ok (Mat m (map (fun i => map (fun j => op (bget A i j) (bget B i j)) (seq 0 m))
                 (seq 0 n))).

(** [A / B] elementwise, together with whether some quotient was taken by
    a divisor that compares equal to zero.  That is not an exception:
    NumPy fills in an infinity or a nan and goes on, with a warning. *)
Definition true_divide (A B : matrix F) : result (matrix F * bool) :=
  quotients <- broadcast2 fdiv A B ;;
  divisors <- broadcast2 (fun _ y => y) A B ;;
  Ok (quotients, existsb (existsb feq0) (rows divisors)).

(** The result of a call is the array it returns and whether a quotient
    of its division of one array by another was by zero. *)
Definition zscore (X : matrix F) : result (matrix F * bool) :=
  let arr := X in
  let avg := mean_axis0 arr in
  let stdev := std_axis0 arr in
  let zero_items := where_eq0 stdev in
  '(avg, stdev) <-
     (if (0 <? length zero_items)%nat
      then avg' <- setitem avg zero_items fzero ;;
           stdev' <- setitem stdev zero_items fone ;;
           Ok (avg', stdev')
      else Ok (avg, stdev)) ;;
  centred <- broadcast2 fsub arr (atleast_2d avg) ;;
  '(zarr, by_zero) <- true_divide centred (atleast_2d stdev) ;;
  zarr <- setitem_cols zarr zero_items fzero ;;
  Ok (zarr, by_zero).

Definition norm_keepdims (A : matrix F) (axis : Z) : result (matrix F) :=
  if ((axis =? 0) || (axis =? -2))%Z
  then Ok (Mat (ncols A) [map (fun j => fnorm (col fzero j A)) (seq 0 (ncols A))])
  else if ((axis =? 1) || (axis =? -1))%Z
  then Ok (Mat 1 (map (fun r => [fnorm r]) (rows A)))
  else Raise AxisError.

Definition normalize (X : matrix F) (axis : Z) : result (matrix F * bool) :=
  let normed := X in
  normal_base <- norm_keepdims normed axis ;;
  (* avoid DivideByZero errors *)
  let zero_items := where_eq0_2d normal_base in
  normal_base <- setitem_pairs normal_base zero_items fone ;;
  (* normalize and re-set zero_items to 0 *)
  '(normed, by_zero) <- true_divide normed normal_base ;;
  normed <- setitem_pairs normed zero_items fzero ;;
  Ok (normed, by_zero).

End Functions.
End Rounded.

#[export] Instance Arith_real : Arith R :=
  {| fzero := 0; fone := 1; fsub := Rminus; fdiv := Rdiv;
     fmean := mean; fstd := std; fnorm := norm;
     feq0 := fun x => Reqb x 0;
     fisfinite := fun _ => true;
     fisfinite_zero := eq_refl;
     feq0_one :=
       match Req_dec_T 1 0 as s return (if s then true else false) = false with
       | left e => False_ind _ (R1_neq_R0 e)
       | right _ => eq_refl
       end |}.

(** IEEE 754 double precision, by the kernel's primitive floats.  A
    reduction adds the entries in the order of their index, starting from
    the first one, as [np.add.reduce] does along axis 0; the mean, the
    standard deviation and the norm are put together from it as NumPy puts
    them together. *)
Module Binary64.
Import PrimFloat.
Local Open Scope float_scope.

Definition sum (v : list float) : float :=
  match v with
  | [] => 0
  | x :: t => fold_left add t x
  end.

(** The number of entries as a float (exact below 2**53). *)
Definition count (v : list float) : float := fold_left (fun n _ => n + 1) v 0.

Definition mean (v : list float) : float := sum v / count v.

(** [x = arr - arrmean; x = x * x; sqrt(sum(x) / N)] *)
Definition std (v : list float) : float :=
  let x := map (fun a => a - mean v) v in
  sqrt (mean (map (fun d => d * d) x)).

(** [sqrt(sum(x * x))] *)
Definition norm (v : list float) : float := sqrt (sum (map (fun a => a * a) v)).

Definition isfinite (x : float) : bool := negb (is_nan x || is_infinity x).

(** 0.1 is not a double; the nearest one is meant. *)
Definition tenth : float := 0x1.999999999999ap-4.

End Binary64.

#[export] Instance Arith_binary64 : Arith PrimFloat.float :=
  {| fzero := PrimFloat.zero; fone := PrimFloat.one;
     fsub := PrimFloat.sub; fdiv := PrimFloat.div;
     fmean := Binary64.mean; fstd := Binary64.std; fnorm := Binary64.norm;
     feq0 := fun x => PrimFloat.eqb x PrimFloat.zero;
     fisfinite := Binary64.isfinite;
     fisfinite_zero := eq_refl;
     feq0_one := eq_refl |}.

(** ** Specification-level notions

    What the documentation says in words, to compare the functions with. *)

(** The rows of [A] that belong to group [grp]: row [i] is kept when the
    [i]-th label is [grp]. *)
Definition group_rows {T} (A : matrix T) (g : list label) (grp : label)
  : matrix T :=
  Mat (ncols A)
      (map snd (filter (fun p => (fst p =? grp)%Z) (combine g (rows A)))).

(** The number of rows in group [grp]. *)
Definition group_size (g : list label) (grp : label) : nat :=
  count_occ Z.eq_dec g grp.

(** The 1-based rank of [x] in the list [labels]; 0 when it is not there. *)
Fixpoint rank (labels : list label) (x : label) : Z :=
  match labels with
  | [] => 0%Z
  | y :: t =>
      if (x =? y)%Z then 1%Z
      else if (rank t x =? 0)%Z then 0%Z
      else (rank t x + 1)%Z
  end.

Definition Zsum (v : list Z) : Z := fold_right Z.add 0%Z v.

(** The sum over n = 1..G of [Y[i, n-1] * n]. *)
Definition weighted_row_sum {T} `{Dtype T} (Y : matrix T) (G i : nat) : T :=
  fold_left dadd
            (map (fun n => dscale (get dzero Y i (n - 1)) (Z.of_nat n)) (seq 1 G))
            dzero.

(** ** Sample inputs *)

Module Sample.

(** a 2 x 2 matrix with one varying and one constant column *)
Definition X22 : matrix R := Mat 2 [[1; 5]; [3; 5]].
(** a 2 x 1 matrix *)
Definition Y21 : matrix R := Mat 1 [[2]; [4]].
(** a 3 x 1 matrix *)
Definition Y31 : matrix R := Mat 1 [[2]; [4]; [6]].
(** one row, one column, and a grouping with that single row *)
Definition X11 : matrix R := Mat 1 [[1]].
Definition Y11 : matrix R := Mat 1 [[2]].
Definition g1 : list label := [5%Z].
(** four rows in two groups of two *)
Definition X41 : matrix R := Mat 1 [[1]; [2]; [3]; [5]].
Definition Y41 : matrix R := Mat 1 [[2]; [1]; [4]; [3]].
Definition g4 : list label := [7%Z; 3%Z; 7%Z; 3%Z].
(** no rows, one column *)
Definition X01 : matrix R := Mat 1 [].
(** two rows, no column *)
Definition I20 : matrix Z := Mat 0 [[]; []].
(** the grouping of the documentation's example *)
Definition g5 : list label := [0%Z; 0%Z; 1%Z; 2%Z; 1%Z].
(** two rows that are not one-hot: all zero, and two ones *)
Definition I23 : matrix Z := Mat 3 [[0; 0; 0]; [1; 0; 1]]%Z.

(** a one-hot matrix, and the column of the 1 in each of its rows *)
Definition H23 : matrix Z := Mat 3 [[0; 0; 1]; [1; 0; 0]]%Z.
Definition H23_col (i : nat) : nat := match i with O => 2%nat | _ => O end.

Import PrimFloat.

(** doubles: a column of three tenths and a column of three fives *)
Definition T32 : matrix float :=
  Mat 2 [[Binary64.tenth; 5]; [Binary64.tenth; 5]; [Binary64.tenth; 5]]%float.
Definition T32_zscore : matrix float :=
  Mat 2 [[-1; 0]; [-1; 0]; [-1; 0]]%float.
(** doubles: a column whose squares underflow to zero *)
Definition U21 : matrix float := Mat 1 [[0x1p-600]; [0x1p-600]]%float.
Definition U21_normalize : matrix float := Mat 1 [[0]; [0x1p-600]]%float.
(** doubles: a column of two fives *)
Definition fives : list float := [5; 5]%float.

End Sample.

(** * Verification *)

(** ** Lists and index assignment *)

Section ListFacts.
Context {T : Type}.
Implicit Types (l : list T) (x d : T).

Lemma update_length l i x : length (update l i x) = length l.
Proof. revert i; induction l as [|h t IH]; intros [|i]; simpl; auto. Qed.

Lemma nth_update l i x k d :
  (i < length l)%nat ->
  nth k (update l i x) d = if (k =? i)%nat then x else nth k l d.
Proof.
  revert i k; induction l as [|h t IH]; intros i k Hi; simpl in *; [lia|].
  destruct i, k; simpl; auto. apply IH; lia.
Qed.

Lemma update_out l i x : (length l <= i)%nat -> update l i x = l.
Proof.
  revert i; induction l as [|h t IH]; intros i Hi; simpl in *; auto.
  destruct i; [lia|]. f_equal. apply IH; lia.
Qed.

Lemma update_all_length l idxs x : length (update_all l idxs x) = length l.
Proof.
  unfold update_all; revert l; induction idxs as [|i idxs IH]; intros l;
    simpl; auto.
  now rewrite IH, update_length.
Qed.

Lemma nth_update_all l idxs x k d :
  (k < length l)%nat ->
  nth k (update_all l idxs x) d
  = if existsb (Nat.eqb k) idxs then x else nth k l d.
Proof.
  unfold update_all; revert l; induction idxs as [|i idxs IH]; intros l Hk;
    simpl; auto.
  rewrite IH by (now rewrite update_length).
  destruct (existsb (Nat.eqb k) idxs); [now rewrite orb_true_r|].
  rewrite orb_false_r.
  destruct (Nat.lt_ge_cases i (length l)) as [Hi|Hi].
  - now rewrite nth_update.
  - rewrite update_out by auto.
    destruct (Nat.eqb_spec k i); auto; lia.
Qed.

Lemma nth_map_seq (f : nat -> T) n j d :
  (j < n)%nat -> nth j (map f (seq 0 n)) d = f j.
Proof.
  intros Hj. rewrite nth_indep with (d' := f O) by (now rewrite length_map, length_seq).
  rewrite map_nth, seq_nth; auto.
Qed.

Lemma map_seq_nth l d : map (fun i => nth i l d) (seq 0 (length l)) = l.
Proof.
  apply nth_ext with (d := d) (d' := d).
  - now rewrite length_map, length_seq.
  - intros n Hn. rewrite length_map, length_seq in Hn. now rewrite nth_map_seq.
Qed.

Lemma nth_col d j (A : matrix T) i :
  (i < nrows A)%nat -> nth i (col d j A) d = get d A i j.
Proof.
  unfold col, get, nrows; intros Hi.
  transitivity (nth i (map (fun r => nth j r d) (rows A)) ((fun r => nth j r d) [])).
  - apply nth_indep. now rewrite length_map.
  - apply (map_nth (fun r => nth j r d)).
Qed.

Lemma col_length d j (A : matrix T) : length (col d j A) = nrows A.
Proof. unfold col, nrows. now rewrite length_map. Qed.


Lemma is_matrix_row N J (A : matrix T) i :
  is_matrix N J A -> (i < N)%nat -> length (nth i (rows A) []) = J.
Proof.
  intros (HN & _ & Hall) Hi. rewrite Forall_forall in Hall.
  apply Hall, nth_In. unfold nrows in HN; lia.
Qed.

End ListFacts.

Lemma rows_as_get {T} N J (A : matrix T) d :
  is_matrix N J A ->
  rows A = map (fun i => map (fun j => get d A i j) (seq 0 J)) (seq 0 N).
Proof.
  intros HA. pose proof HA as (HN & _). unfold nrows in HN.
  apply nth_ext with (d := []) (d' := []).
  - now rewrite length_map, length_seq.
  - intros i Hi. rewrite HN in Hi. rewrite nth_map_seq by auto.
    unfold get. rewrite <- (is_matrix_row HA Hi). symmetry. apply map_seq_nth.
Qed.

Lemma matrix_ext {T} N J (A B : matrix T) d :
  is_matrix N J A -> is_matrix N J B ->
  (forall i j, (i < N)%nat -> (j < J)%nat -> get d A i j = get d B i j) ->
  A = B.
Proof.
  intros HA HB H. destruct A as [ca ra], B as [cb rb].
  pose proof HA as (_ & HcA & _). pose proof HB as (_ & HcB & _).
  simpl in HcA, HcB. subst ca cb. f_equal.
  change ra with (rows (Mat J ra)). change rb with (rows (Mat J rb)).
  rewrite (rows_as_get d HA), (rows_as_get d HB).
  apply map_ext_in. intros i Hi. apply in_seq in Hi.
  apply map_ext_in. intros j Hj. apply in_seq in Hj.
  apply H; lia.
Qed.

Lemma existsb_eqb_In k idxs : existsb (Nat.eqb k) idxs = true <-> In k idxs.
Proof.
  rewrite existsb_exists; split.
  - intros (x & Hin & Heq). apply Nat.eqb_eq in Heq. now subst.
  - intros Hin. exists k. now rewrite Nat.eqb_refl.
Qed.

Lemma forallb_update_ok {T} (v : list T) idxs x :
  Forall (fun i => (i < length v)%nat) idxs ->
  setitem v idxs x = Ok (update_all v idxs x).
Proof.
  intros H. unfold setitem.
  replace (forallb _ idxs) with true; auto.
  symmetry. apply forallb_forall. rewrite Forall_forall in H.
  intros i Hi. apply Nat.ltb_lt. auto.
Qed.

(** ** Real-number facts *)

Lemma Reqb_true x y : Reqb x y = true <-> x = y.
Proof. unfold Reqb. destruct (Req_dec_T x y); split; congruence. Qed.

Lemma Reqb_false x y : Reqb x y = false <-> x <> y.
Proof. unfold Reqb. destruct (Req_dec_T x y); split; congruence. Qed.

Lemma where_eq0_In v j :
  In j (where_eq0 v) <-> (j < length v)%nat /\ nth j v 0 = 0.
Proof.
  unfold where_eq0. rewrite filter_In, in_seq, Reqb_true. intuition lia.
Qed.

Lemma where_eq0_mem v j :
  (j < length v)%nat ->
  existsb (Nat.eqb j) (where_eq0 v) = Reqb (nth j v 0) 0.
Proof.
  intros Hj. destruct (Reqb (nth j v 0) 0) eqn:E.
  - apply existsb_eqb_In, where_eq0_In. split; auto. now apply Reqb_true.
  - apply not_true_is_false. rewrite existsb_eqb_In, where_eq0_In.
    apply Reqb_false in E. tauto.
Qed.

Lemma where_eq0_bound v : Forall (fun j => (j < length v)%nat) (where_eq0 v).
Proof. apply Forall_forall. intros j Hj. now apply where_eq0_In in Hj. Qed.

(** ** Broadcasting *)

Lemma bdim_left N n : n = N \/ n = 1%nat -> bdim N n = Ok N.
Proof.
  unfold bdim. intros [->| ->].
  - now rewrite Nat.eqb_refl.
  - destruct (Nat.eqb_spec N 1); [now subst|].
    destruct (Nat.eqb_spec N 1); [lia|]. reflexivity.
Qed.

Lemma bget_in_range N J (A : matrix R) i j :
  is_matrix N J A -> (i < N)%nat -> (j < J)%nat -> bget A i j = get 0 A i j.
Proof.
  intros (HN & HJ & _) Hi Hj. unfold bget.
  destruct (Nat.eqb_spec (nrows A) 1), (Nat.eqb_spec (ncols A) 1);
    try (assert (i = O) by lia; subst i);
    try (assert (j = O) by lia; subst j); reflexivity.
Qed.

Lemma bget_row (v : list R) i j :
  (j < length v)%nat -> bget (atleast_2d v) i j = nth j v 0.
Proof.
  intros Hj. unfold bget, get; simpl.
  destruct (Nat.eqb_spec (length v) 1) as [E|E]; auto.
  assert (j = O) by lia. now subst.
Qed.

Lemma broadcast2_spec op N J (A B : matrix R) :
  is_matrix N J A ->
  nrows B = N \/ nrows B = 1%nat ->
  ncols B = J \/ ncols B = 1%nat ->
  exists C, broadcast2 op A B = Ok C /\ is_matrix N J C /\
            forall i j, (i < N)%nat -> (j < J)%nat ->
                        get 0 C i j = op (get 0 A i j) (bget B i j).
Proof.
  intros HA Hr Hc. pose proof HA as (HN & HJ & _).
  unfold broadcast2. rewrite HN, HJ, (bdim_left Hr), (bdim_left Hc). simpl.
  eexists; split; [reflexivity|]. split.
  - repeat split; simpl.
    + unfold nrows; simpl. now rewrite length_map, length_seq.
    + apply Forall_forall. intros r Hr'. apply in_map_iff in Hr' as (i & <- & _).
      now rewrite length_map, length_seq.
  - intros i j Hi Hj. unfold get at 1; simpl.
    rewrite nth_map_seq with (d := []) by auto.
    rewrite nth_map_seq by auto.
    now rewrite (bget_in_range HA Hi Hj).
Qed.

Lemma nth_map_in {A B} (f : A -> B) l i d d' :
  (i < length l)%nat -> nth i (map f l) d = f (nth i l d').
Proof.
  intros Hi. transitivity (nth i (map f l) (f d')).
  - apply nth_indep. now rewrite length_map.
  - apply map_nth.
Qed.

Lemma setitem_cols_spec {T} N J (A : matrix T) idxs x d :
  is_matrix N J A ->
  Forall (fun j => (j < J)%nat) idxs ->
  exists C, setitem_cols A idxs x = Ok C /\ is_matrix N J C /\
            forall i j, (i < N)%nat -> (j < J)%nat ->
                        get d C i j
                        = if existsb (Nat.eqb j) idxs then x else get d A i j.
Proof.
  intros HA Hidx. pose proof HA as (HN & HJ & Hall).
  unfold setitem_cols.
  replace (forallb _ idxs) with true.
  2:{ symmetry. apply forallb_forall. rewrite Forall_forall in Hidx.
      intros j Hj. apply Nat.ltb_lt. rewrite HJ. auto. }
  eexists; split; [reflexivity|]. split.
  - repeat split; simpl; auto.
    + unfold nrows in *; simpl. now rewrite length_map.
    + apply Forall_forall. intros r Hr. apply in_map_iff in Hr as (r0 & <- & Hr0).
      rewrite update_all_length. rewrite Forall_forall in Hall. auto.
  - intros i j Hi Hj. unfold get; simpl.
    rewrite nth_map_in with (d' := []) by (unfold nrows in HN; lia).
    apply nth_update_all. now rewrite (is_matrix_row HA Hi).
Qed.

(** ** zscore: what it returns, entry by entry *)

Lemma mean_axis0_length A : length (mean_axis0 A) = ncols A.
Proof. unfold mean_axis0. now rewrite length_map, length_seq. Qed.

Lemma std_axis0_length A : length (std_axis0 A) = ncols A.
Proof. unfold std_axis0. now rewrite length_map, length_seq. Qed.

Lemma zscore_entries N J (X : matrix R) :
  is_matrix N J X ->
  exists Zm, zscore X = Ok Zm /\ is_matrix N J Zm /\
    forall i j, (i < N)%nat -> (j < J)%nat ->
      get 0 Zm i j
      = if Reqb (std (col 0 j X)) 0 then 0
        else (get 0 X i j - mean (col 0 j X)) / std (col 0 j X).
Proof.
  intros HX. pose proof HX as (HN & HJ & _).
  unfold zscore.
  set (avg := mean_axis0 X). set (stdev := std_axis0 X).
  set (zi := where_eq0 stdev).
  assert (Hzi : Forall (fun j => (j < J)%nat) zi).
  { pose proof (where_eq0_bound stdev) as H.
    unfold stdev in H at 1. now rewrite std_axis0_length, HJ in H. }
  assert (Hpair :
    (if (0 <? length zi)%nat
     then avg' <- setitem avg zi 0 ;; stdev' <- setitem stdev zi 1 ;;
          Ok (avg', stdev')
     else Ok (avg, stdev))
    = Ok (update_all avg zi 0, update_all stdev zi 1)).
  { destruct (Nat.ltb_spec 0 (length zi)) as [Hlen|Hlen].
    - rewrite !forallb_update_ok; auto.
      + unfold stdev. now rewrite std_axis0_length, HJ.
      + unfold avg. now rewrite mean_axis0_length, HJ.
    - destruct zi; simpl in Hlen; [reflexivity|lia]. }
  rewrite Hpair; simpl.
  destruct (@broadcast2_spec Rminus N J X (atleast_2d (update_all avg zi 0)) HX)
    as (C1 & E1 & HC1 & G1).
  { now right. }
  { left. simpl. unfold avg. now rewrite update_all_length, mean_axis0_length. }
  rewrite E1; simpl.
  destruct (@broadcast2_spec Rdiv N J C1 (atleast_2d (update_all stdev zi 1)) HC1)
    as (C2 & E2 & HC2 & G2).
  { now right. }
  { left. simpl. unfold stdev. now rewrite update_all_length, std_axis0_length. }
  rewrite E2; simpl.
  destruct (setitem_cols_spec 0 0 HC2 Hzi) as (C3 & E3 & HC3 & G3).
  exists C3. split; [exact E3|]. split; [exact HC3|].
  intros i j Hi Hj.
  assert (Hs : nth j stdev 0 = std (col 0 j X)).
  { unfold stdev, std_axis0. rewrite nth_map_seq; auto. lia. }
  assert (Hm : nth j avg 0 = mean (col 0 j X)).
  { unfold avg, mean_axis0. rewrite nth_map_seq; auto. lia. }
  assert (Hmem : existsb (Nat.eqb j) zi = Reqb (std (col 0 j X)) 0).
  { unfold zi. rewrite where_eq0_mem, Hs; auto.
    unfold stdev. rewrite std_axis0_length. lia. }
  rewrite G3, Hmem by auto.
  destruct (Reqb (std (col 0 j X)) 0) eqn:E; auto.
  rewrite G2, G1 by auto.
  rewrite !bget_row.
  1: rewrite !nth_update_all, Hmem, Hs, Hm; auto.
  all: unfold avg, stdev;
    rewrite ?update_all_length, ?mean_axis0_length, ?std_axis0_length; lia.
Qed.

(** ** Mean and standard deviation of a standardised column *)



Lemma Rsum_map_sq_nonneg (f : R -> R) l : 0 <= Rsum (map (fun x => f x * f x) l).
Proof.
  induction l as [|x l IH]; simpl; [lra|].
  pose proof (Rle_0_sqr (f x)) as H. unfold Rsqr in H. lra.
Qed.






(** ** zscore over any arithmetic *)

Section RoundedFacts.
Context {F : Type} `{Arith F}.
Implicit Types (A B X : matrix F) (v : list F).




Lemma rounded_bget_in_range N J A i j :
  is_matrix N J A -> (i < N)%nat -> (j < J)%nat ->
  Rounded.bget A i j = get fzero A i j.
Proof.
  intros (HN & HJ & _) Hi Hj. unfold Rounded.bget.
  destruct (Nat.eqb_spec (nrows A) 1), (Nat.eqb_spec (ncols A) 1);
    try (assert (i = O) by lia; subst i);
    try (assert (j = O) by lia; subst j); reflexivity.
Qed.


Lemma rounded_broadcast2_spec op N J A B :
  is_matrix N J A ->
  nrows B = N \/ nrows B = 1%nat ->
  ncols B = J \/ ncols B = 1%nat ->
  exists C, Rounded.broadcast2 op A B = Ok C /\ is_matrix N J C /\
            forall i j, (i < N)%nat -> (j < J)%nat ->
                        get fzero C i j
                        = op (get fzero A i j) (Rounded.bget B i j).
Proof.
  intros HA Hr Hc. pose proof HA as (HN & HJ & _).
  unfold Rounded.broadcast2. rewrite HN, HJ, (bdim_left Hr), (bdim_left Hc).
  simpl.
  eexists; split; [reflexivity|]. split.
  - repeat split; simpl.
    + unfold nrows; simpl. now rewrite length_map, length_seq.
    + apply Forall_forall. intros r Hr'. apply in_map_iff in Hr' as (i & <- & _).
      now rewrite length_map, length_seq.
  - intros i j Hi Hj. unfold get at 1; simpl.
    rewrite nth_map_seq with (d := []) by auto.
    rewrite nth_map_seq by auto.
    now rewrite (rounded_bget_in_range HA Hi Hj).
Qed.

Lemma existsb_rows_false (p : F -> bool) N J A :
  is_matrix N J A ->
  (forall i j, (i < N)%nat -> (j < J)%nat -> p (get fzero A i j) = false) ->
  existsb (existsb p) (rows A) = false.
Proof.
  intros HA Hp. apply not_true_is_false. intros Hex.
  rewrite (rows_as_get fzero HA) in Hex.
  apply existsb_exists in Hex as (r & Hr & Hex).
  apply in_map_iff in Hr as (i & <- & Hi). apply in_seq in Hi.
  apply existsb_exists in Hex as (x & Hx & Hpx).
  apply in_map_iff in Hx as (j & <- & Hj). apply in_seq in Hj.
  rewrite Hp in Hpx by lia. discriminate Hpx.
Qed.

(** The quotient of two arrays, and when none of its divisors compares
    equal to zero. *)
Lemma rounded_true_divide_spec N J A B :
  is_matrix N J A ->
  nrows B = N \/ nrows B = 1%nat ->
  ncols B = J \/ ncols B = 1%nat ->
  exists C by_zero,
    Rounded.true_divide A B = Ok (C, by_zero) /\ is_matrix N J C
    /\ (forall i j, (i < N)%nat -> (j < J)%nat ->
          get fzero C i j = fdiv (get fzero A i j) (Rounded.bget B i j))
    /\ ((forall i j, (i < N)%nat -> (j < J)%nat ->
           feq0 (Rounded.bget B i j) = false) -> by_zero = false).
Proof.
  intros HA Hr Hc. unfold Rounded.true_divide.
  destruct (@rounded_broadcast2_spec fdiv N J A B HA Hr Hc)
    as (C & EC & HC & GC).
  destruct (@rounded_broadcast2_spec (fun _ y => y) N J A B HA Hr Hc)
    as (D & ED & HD & GD).
  rewrite EC, ED; simpl.
  eexists; eexists; split; [reflexivity|]. split; [exact HC|].
  split; [exact GC|].
  intros Hnz. apply (existsb_rows_false feq0 HD).
  intros i j Hi Hj. rewrite GD by auto. auto.
Qed.




End RoundedFacts.




(** ** Assignment at (row, column) pairs *)

Lemma Forall_update {T} (P : T -> Prop) l i x :
  Forall P l -> P x -> Forall P (update l i x).
Proof.
  intros Hl Hx. revert i; induction Hl as [|h t Hh Ht IH]; intros [|i]; simpl;
    auto.
Qed.

Lemma update2_shape {T} N J (rs : list (list T)) ij x :
  length rs = N -> Forall (fun r => length r = J) rs ->
  length (update2 rs ij x) = N
  /\ Forall (fun r => length r = J) (update2 rs ij x).
Proof.
  intros HN Hall. unfold update2. split; [now rewrite update_length|].
  destruct (Nat.lt_ge_cases (fst ij) (length rs)) as [Hi|Hi].
  - apply Forall_update; auto. rewrite update_length.
    rewrite Forall_forall in Hall. now apply Hall, nth_In.
  - now rewrite update_out.
Qed.

Lemma get_update2 {T} (rs : list (list T)) a b x i j d :
  (a < length rs)%nat -> (b < length (nth a rs []))%nat ->
  nth j (nth i (update2 rs (a, b) x) []) d
  = if ((i =? a) && (j =? b))%nat then x else nth j (nth i rs []) d.
Proof.
  intros Ha Hb. unfold update2; simpl. rewrite nth_update by auto.
  destruct (Nat.eqb_spec i a) as [->|Hne]; simpl; auto.
  now rewrite nth_update.
Qed.

Lemma existsb_pair_In (idxs : list (nat * nat)) i j :
  existsb (fun p => (i =? fst p) && (j =? snd p))%nat idxs = true
  <-> In (i, j) idxs.
Proof.
  rewrite existsb_exists; split.
  - intros ((a, b) & Hin & Heq). simpl in Heq.
    apply andb_true_iff in Heq as (Ha & Hb).
    apply Nat.eqb_eq in Ha, Hb. now subst.
  - intros Hin. exists (i, j). simpl. now rewrite !Nat.eqb_refl.
Qed.

Lemma fold_update2_spec {T} N J idxs (x d : T) : forall rs,
  length rs = N -> Forall (fun r => length r = J) rs ->
  Forall (fun ij => (fst ij < N)%nat /\ (snd ij < J)%nat) idxs ->
  let rs' := fold_left (fun rs ij => update2 rs ij x) idxs rs in
  length rs' = N /\ Forall (fun r => length r = J) rs'
  /\ forall i j, (i < N)%nat -> (j < J)%nat ->
       nth j (nth i rs' []) d
       = if existsb (fun p => (i =? fst p) && (j =? snd p))%nat idxs
         then x else nth j (nth i rs []) d.
Proof.
  induction idxs as [|(a, b) idxs IH]; intros rs HN Hall Hidx; simpl.
  - auto.
  - inversion Hidx as [|? ? (Ha & Hb) Hidx']; subst; simpl in *.
    destruct (update2_shape (a, b) x eq_refl Hall) as (HN' & Hall').
    destruct (IH _ HN' Hall' Hidx') as (H1 & H2 & H3).
    split; [exact H1|]. split; [exact H2|].
    intros i j Hi Hj. rewrite H3 by auto.
    destruct (existsb _ idxs); [now rewrite orb_true_r|].
    rewrite orb_false_r. apply get_update2; auto.
    rewrite Forall_forall in Hall. rewrite (Hall (nth a rs [])); auto.
    now apply nth_In.
Qed.

Lemma setitem_pairs_spec {T} N J (A : matrix T) idxs (x d : T) :
  is_matrix N J A ->
  Forall (fun ij => (fst ij < N)%nat /\ (snd ij < J)%nat) idxs ->
  exists C, setitem_pairs A idxs x = Ok C /\ is_matrix N J C /\
    forall i j, (i < N)%nat -> (j < J)%nat ->
      get d C i j
      = if existsb (fun p => (i =? fst p) && (j =? snd p))%nat idxs
        then x else get d A i j.
Proof.
  intros (HN & HJ & Hall) Hidx. unfold setitem_pairs.
  replace (forallb _ idxs) with true.
  2:{ symmetry. apply forallb_forall. rewrite Forall_forall in Hidx.
      intros ij Hij. destruct (Hidx _ Hij) as (Ha & Hb).
      rewrite HN, HJ. apply andb_true_iff. split; now apply Nat.ltb_lt. }
  destruct (@fold_update2_spec T N J idxs x d (rows A) HN Hall Hidx)
    as (H1 & H2 & H3).
  eexists; split; [reflexivity|]. split.
  - repeat split; auto.
  - intros i j Hi Hj. unfold get; simpl. now apply H3.
Qed.

Lemma setitem_pairs_raises {T} (A : matrix T) idxs (x : T) ij :
  In ij idxs -> (nrows A <= fst ij)%nat \/ (ncols A <= snd ij)%nat ->
  setitem_pairs A idxs x = Raise IndexError.
Proof.
  intros Hin Hout. unfold setitem_pairs.
  destruct (forallb _ idxs) eqn:E; auto.
  rewrite forallb_forall in E. specialize (E _ Hin).
  apply andb_true_iff in E as (Ha & Hb).
  apply Nat.ltb_lt in Ha, Hb. lia.
Qed.

Lemma where_eq0_2d_In (A : matrix R) i j :
  In (i, j) (where_eq0_2d A)
  <-> (i < nrows A)%nat /\ (j < ncols A)%nat /\ get 0 A i j = 0.
Proof.
  unfold where_eq0_2d. rewrite in_flat_map. split.
  - intros (i' & Hi & Hin). apply in_map_iff in Hin as (j' & Heq & Hj).
    inversion Heq; subst. apply filter_In in Hj as (Hj & Hz).
    apply in_seq in Hi, Hj. apply Reqb_true in Hz. intuition lia.
  - intros (Hi & Hj & Hz). exists i. split; [apply in_seq; lia|].
    apply in_map_iff. exists j. split; auto.
    apply filter_In. split; [apply in_seq; lia|]. now apply Reqb_true.
Qed.

(** ** Norms *)

Lemma Rsum_sq_zero v : Rsum (map (fun x => x * x) v) = 0 -> Forall (eq 0) v.
Proof.
  induction v as [|x v IH]; simpl; intros H; constructor.
  - pose proof (Rsum_map_sq_nonneg (fun y => y) v) as Hv.
    pose proof (Rle_0_sqr x) as Hx. unfold Rsqr in Hx.
    assert (Hxx : x * x = 0) by lra.
    apply Rmult_integral in Hxx. lra.
  - apply IH.
    pose proof (Rsum_map_sq_nonneg (fun y => y) v) as Hv.
    pose proof (Rle_0_sqr x) as Hx. unfold Rsqr in Hx. lra.
Qed.

Lemma norm_zero_entries v k : norm v = 0 -> nth k v 0 = 0.
Proof.
  intros H. unfold norm in H. apply sqrt_eq_0 in H.
  2: apply (Rsum_map_sq_nonneg (fun y => y)).
  apply Rsum_sq_zero in H. rewrite Forall_forall in H.
  destruct (Nat.lt_ge_cases k (length v)) as [Hk|Hk].
  - symmetry. now apply H, nth_In.
  - now apply nth_overflow.
Qed.

Lemma norm_nil : norm [] = 0.
Proof. unfold norm; simpl. apply sqrt_0. Qed.

(** ** normalize: what it returns, entry by entry *)

Lemma bget_one_row J (B : matrix R) i j :
  is_matrix 1 J B -> (j < J)%nat -> bget B i j = get 0 B 0 j.
Proof.
  intros (HN & HJ & _) Hj. unfold bget. rewrite HN; simpl.
  destruct (Nat.eqb_spec (ncols B) 1); auto.
  assert (j = O) by lia. now subst.
Qed.

Lemma bget_one_col N (B : matrix R) i j :
  is_matrix N 1 B -> (i < N)%nat -> bget B i j = get 0 B i 0.
Proof.
  intros (HN & HJ & _) Hi. unfold bget. rewrite HJ; simpl.
  destruct (Nat.eqb_spec (nrows B) 1); auto.
  assert (i = O) by lia. now subst.
Qed.

Lemma norm_keepdims_axis0 N J (X : matrix R) :
  is_matrix N J X ->
  exists B, norm_keepdims X 0 = Ok B /\ is_matrix 1 J B /\
            forall j, (j < J)%nat -> get 0 B 0 j = norm (col 0 j X).
Proof.
  intros (HN & HJ & _). eexists; split; [reflexivity|]. split.
  - repeat split; simpl; auto. constructor; auto.
    now rewrite length_map, length_seq.
  - intros j Hj. unfold get; simpl. rewrite nth_map_seq; auto. lia.
Qed.

Lemma norm_keepdims_axis1 N J (X : matrix R) :
  is_matrix N J X ->
  exists B, norm_keepdims X 1 = Ok B /\ is_matrix N 1 B /\
            forall i, (i < N)%nat -> get 0 B i 0 = norm (nth i (rows X) []).
Proof.
  intros (HN & HJ & _). eexists; split; [reflexivity|]. split.
  - repeat split; simpl; auto.
    + unfold nrows in *; simpl. now rewrite length_map.
    + apply Forall_forall. intros r Hr.
      apply in_map_iff in Hr as (r0 & <- & _). reflexivity.
  - intros i Hi. unfold get; simpl.
    rewrite nth_map_in with (d' := []) by (unfold nrows in HN; lia).
    reflexivity.
Qed.

Lemma normalize_axis0_entries N J (X : matrix R) :
  is_matrix N J X -> (1 <= N)%nat \/ J = O ->
  exists C, normalize X 0 = Ok C /\ is_matrix N J C /\
    forall i j, (i < N)%nat -> (j < J)%nat ->
      get 0 C i j
      = if Reqb (norm (col 0 j X)) 0 then 0
        else get 0 X i j / norm (col 0 j X).
Proof.
  intros HX Hne. pose proof HX as (HN & HJ & _).
  unfold normalize.
  destruct (norm_keepdims_axis0 HX) as (B & EB & HB & GB).
  rewrite EB; simpl. pose proof HB as (HBN & HBJ & _).
  set (zi := where_eq0_2d B).
  assert (Hzi : forall i j, In (i, j) zi <->
                 i = O /\ (j < J)%nat /\ norm (col 0 j X) = 0).
  { intros i j. unfold zi. rewrite where_eq0_2d_In, HBN, HBJ. split.
    - intros (Hi & Hj & Hz). assert (i = O) by lia. subst.
      rewrite GB in Hz by auto. auto.
    - intros (-> & Hj & Hz). rewrite GB by auto. repeat split; auto. }
  assert (Hzi1 : Forall (fun ij => (fst ij < 1)%nat /\ (snd ij < J)%nat) zi).
  { apply Forall_forall. intros (i, j) Hin. apply Hzi in Hin. simpl. lia. }
  assert (HziN : Forall (fun ij => (fst ij < N)%nat /\ (snd ij < J)%nat) zi).
  { apply Forall_forall. intros (i, j) Hin. apply Hzi in Hin. simpl. lia. }
  destruct (setitem_pairs_spec 1 0 HB Hzi1) as (B' & EB' & HB' & GB').
  rewrite EB'; simpl. pose proof HB' as (HBN' & HBJ' & _).
  destruct (@broadcast2_spec Rdiv N J X B' HX) as (C & EC & HC & GC); auto.
  rewrite EC; simpl.
  destruct (setitem_pairs_spec 0 0 HC HziN) as (D & ED & HD & GD).
  exists D. split; [exact ED|]. split; [exact HD|].
  intros i j Hi Hj. rewrite GD by auto.
  destruct (existsb _ zi) eqn:Emem.
  - apply existsb_pair_In, Hzi in Emem as (_ & _ & Hz).
    apply Reqb_true in Hz. now rewrite Hz.
  - rewrite GC by auto. rewrite (bget_one_row i HB' Hj).
    destruct (Reqb (norm (col 0 j X)) 0) eqn:En.
    + apply Reqb_true in En.
      apply norm_zero_entries with (k := i) in En.
      rewrite nth_col in En by lia. rewrite En. unfold Rdiv. ring.
    + rewrite GB' by (auto; lia).
      replace (existsb _ zi) with false; [now rewrite GB|].
      symmetry. apply not_true_is_false.
      rewrite existsb_pair_In, Hzi. apply Reqb_false in En. tauto.
Qed.

Lemma normalize_axis1_entries N J (X : matrix R) :
  is_matrix N J X -> (1 <= J)%nat \/ N = O ->
  exists C, normalize X 1 = Ok C /\ is_matrix N J C /\
    forall i j, (i < N)%nat -> (j < J)%nat ->
      get 0 C i j
      = if Reqb (norm (nth i (rows X) [])) 0 then 0
        else get 0 X i j / norm (nth i (rows X) []).
Proof.
  intros HX Hne. pose proof HX as (HN & HJ & _).
  unfold normalize.
  destruct (norm_keepdims_axis1 HX) as (B & EB & HB & GB).
  rewrite EB; simpl. pose proof HB as (HBN & HBJ & _).
  set (zi := where_eq0_2d B).
  assert (Hzi : forall i j, In (i, j) zi <->
                 (i < N)%nat /\ j = O /\ norm (nth i (rows X) []) = 0).
  { intros i j. unfold zi. rewrite where_eq0_2d_In, HBN, HBJ. split.
    - intros (Hi & Hj & Hz). assert (j = O) by lia. subst.
      rewrite GB in Hz by auto. auto.
    - intros (Hi & -> & Hz). rewrite GB by auto. repeat split; auto. }
  assert (Hzi1 : Forall (fun ij => (fst ij < N)%nat /\ (snd ij < 1)%nat) zi).
  { apply Forall_forall. intros (i, j) Hin. apply Hzi in Hin. simpl. lia. }
  assert (HziN : Forall (fun ij => (fst ij < N)%nat /\ (snd ij < J)%nat) zi).
  { apply Forall_forall. intros (i, j) Hin. apply Hzi in Hin. simpl. lia. }
  destruct (setitem_pairs_spec 1 0 HB Hzi1) as (B' & EB' & HB' & GB').
  rewrite EB'; simpl. pose proof HB' as (HBN' & HBJ' & _).
  destruct (@broadcast2_spec Rdiv N J X B' HX) as (C & EC & HC & GC); auto.
  rewrite EC; simpl.
  destruct (setitem_pairs_spec 0 0 HC HziN) as (D & ED & HD & GD).
  exists D. split; [exact ED|]. split; [exact HD|].
  intros i j Hi Hj. rewrite GD by auto.
  destruct (existsb _ zi) eqn:Emem.
  - apply existsb_pair_In, Hzi in Emem as (_ & _ & Hz).
    apply Reqb_true in Hz. now rewrite Hz.
  - rewrite GC by auto. rewrite (bget_one_col j HB' Hi).
    destruct (Reqb (norm (nth i (rows X) [])) 0) eqn:En.
    + apply Reqb_true in En.
      apply norm_zero_entries with (k := j) in En.
      unfold get at 1. rewrite En. unfold Rdiv. ring.
    + rewrite GB' by (auto; lia).
      replace (existsb _ zi) with false; [now rewrite GB|].
      symmetry. apply not_true_is_false.
      rewrite existsb_pair_In, Hzi. apply Reqb_false in En. tauto.
Qed.

(** On a matrix with columns but no rows, [normalize(X, axis=0)] raises:
    the zero entries of the norms, which have one row, are looked up in
    the quotient, which has none. *)
Lemma normalize_no_rows_raises J (X : matrix R) :
  is_matrix 0 J X -> (1 <= J)%nat -> normalize X 0 = Raise IndexError.
Proof.
  intros HX HJ1. pose proof HX as (HN & HJ & _).
  unfold normalize.
  destruct (norm_keepdims_axis0 HX) as (B & EB & HB & GB).
  rewrite EB; simpl. pose proof HB as (HBN & HBJ & _).
  assert (Hin : In (O, O) (where_eq0_2d B)).
  { apply where_eq0_2d_In. rewrite HBN, HBJ, GB by lia.
    repeat split; try lia.
    unfold col. unfold nrows in HN. apply length_zero_iff_nil in HN.
    rewrite HN. apply norm_nil. }
  assert (Hzi1 : Forall (fun ij => (fst ij < 1)%nat /\ (snd ij < J)%nat)
                        (where_eq0_2d B)).
  { apply Forall_forall. intros (i, j) Hij.
    apply where_eq0_2d_In in Hij. simpl. lia. }
  destruct (setitem_pairs_spec 1 0 HB Hzi1) as (B' & EB' & HB' & _).
  rewrite EB'; simpl. pose proof HB' as (HBN' & HBJ' & _).
  destruct (@broadcast2_spec Rdiv 0 J X B' HX) as (C & EC & HC & _); auto.
  rewrite EC; simpl.
  apply setitem_pairs_raises with (ij := (O, O)); auto.
  left. destruct HC as (-> & _). simpl. lia.
Qed.

(** The same along the other axis, on a matrix with rows but no columns. *)
Lemma normalize_no_cols_raises N (X : matrix R) :
  is_matrix N 0 X -> (1 <= N)%nat -> normalize X 1 = Raise IndexError.
Proof.
  intros HX HN1. pose proof HX as (HN & HJ & _).
  unfold normalize.
  destruct (norm_keepdims_axis1 HX) as (B & EB & HB & GB).
  rewrite EB; simpl. pose proof HB as (HBN & HBJ & _).
  assert (Hin : In (O, O) (where_eq0_2d B)).
  { apply where_eq0_2d_In. rewrite HBN, HBJ, GB by lia.
    repeat split; try lia.
    assert (Hlen : length (nth 0 (rows X) []) = O)
      by (apply (is_matrix_row HX); lia).
    apply length_zero_iff_nil in Hlen. rewrite Hlen. apply norm_nil. }
  assert (Hzi1 : Forall (fun ij => (fst ij < N)%nat /\ (snd ij < 1)%nat)
                        (where_eq0_2d B)).
  { apply Forall_forall. intros (i, j) Hij.
    apply where_eq0_2d_In in Hij. simpl. lia. }
  destruct (setitem_pairs_spec 1 0 HB Hzi1) as (B' & EB' & HB' & _).
  rewrite EB'; simpl. pose proof HB' as (HBN' & HBJ' & _).
  destruct (@broadcast2_spec Rdiv N 0 X B' HX) as (C & EC & HC & _); auto.
  rewrite EC; simpl.
  apply setitem_pairs_raises with (ij := (O, O)); auto.
  right. destruct HC as (_ & -> & _). simpl. lia.
Qed.

(** ** _compute_xcorr *)

Lemma transpose_shape {T} N J (A : matrix T) d :
  is_matrix N J A -> is_matrix J N (transpose d A).
Proof.
  intros (HN & HJ & _). repeat split; simpl; auto.
  - unfold nrows; simpl. now rewrite length_map, length_seq.
  - apply Forall_forall. intros r Hr.
    apply in_map_iff in Hr as (j & <- & _). now rewrite col_length.
Qed.

Lemma transpose_row {T} N J (A : matrix T) d k :
  is_matrix N J A -> (k < J)%nat ->
  nth k (rows (transpose d A)) [] = col d k A.
Proof.
  intros (HN & HJ & _) Hk. simpl. rewrite nth_map_seq; auto. lia.
Qed.

Lemma matmul_spec K N J (A B : matrix R) :
  is_matrix K N A -> is_matrix N J B ->
  exists P, matmul A B = Ok P /\ is_matrix K J P /\
    forall k j, (k < K)%nat -> (j < J)%nat ->
      get 0 P k j = dot (nth k (rows A) []) (col 0 j B).
Proof.
  intros (HAN & HAJ & _) (HBN & HBJ & _). unfold matmul.
  rewrite HAJ, HBN, Nat.eqb_refl.
  eexists; split; [reflexivity|]. split.
  - repeat split; simpl; auto.
    + unfold nrows in *; simpl. now rewrite length_map.
    + apply Forall_forall. intros r Hr.
      apply in_map_iff in Hr as (r0 & <- & _).
      now rewrite length_map, length_seq.
  - intros k j Hk Hj. unfold get; simpl.
    rewrite nth_map_in with (d' := []) by (unfold nrows in HAN; lia).
    rewrite nth_map_seq; auto. lia.
Qed.

Lemma matmul_mismatch (A B : matrix R) :
  ncols A <> nrows B -> matmul A B = Raise ValueError.
Proof.
  intros H. unfold matmul. now destruct (Nat.eqb_spec (ncols A) (nrows B)).
Qed.

Lemma div_scalar_spec N J (A : matrix R) c :
  is_matrix N J A ->
  is_matrix N J (div_scalar A c)
  /\ forall i j, (i < N)%nat -> (j < J)%nat ->
       get 0 (div_scalar A c) i j = get 0 A i j / c.
Proof.
  intros HA. pose proof HA as (HN & HJ & Hall). split.
  - repeat split; simpl; auto.
    + unfold nrows in *; simpl. now rewrite length_map.
    + apply Forall_forall. intros r Hr.
      apply in_map_iff in Hr as (r0 & <- & Hr0).
      rewrite length_map. rewrite Forall_forall in Hall. auto.
  - intros i j Hi Hj. unfold get; simpl.
    rewrite nth_map_in with (d' := []) by (unfold nrows in HN; lia).
    rewrite nth_map_in with (d' := 0); auto.
    rewrite (is_matrix_row HA Hi). lia.
Qed.

(** [normalize(X, 0)] either returns a matrix of the shape of [X], or, on a
    matrix with columns and no rows, raises. *)
Lemma normalize_axis0_cases N J (X : matrix R) :
  is_matrix N J X ->
  (exists C, normalize X 0 = Ok C /\ is_matrix N J C)
  \/ (N = O /\ normalize X 0 = Raise IndexError).
Proof.
  intros HX.
  destruct (Nat.eq_dec N 0) as [->|HN]; [destruct (Nat.eq_dec J 0) as [->|HJ]|].
  - left. destruct (@normalize_axis0_entries 0 0 X HX) as (C & E & HC & _); eauto.
  - right. split; auto. apply normalize_no_rows_raises with (J := J); auto. lia.
  - left. destruct (@normalize_axis0_entries N J X HX) as (C & E & HC & _);
      eauto. lia.
Qed.

(** The steps of [_compute_xcorr] on matrices with at least one row. *)
Lemma compute_xcorr_steps N J K (X Y : matrix R) :
  (1 <= N)%nat -> is_matrix N J X -> is_matrix N K Y ->
  exists zx zy Xnz Ynz P,
    zscore X = Ok zx /\ zscore Y = Ok zy /\
    normalize zx 0 = Ok Xnz /\ normalize zy 0 = Ok Ynz /\
    is_matrix N J Xnz /\ is_matrix N K Ynz /\
    matmul (transpose 0 Ynz) Xnz = Ok P /\ is_matrix K J P /\
    _compute_xcorr X Y = Ok (div_scalar P (IZR (Z.of_nat N - 1))).
Proof.
  intros HN1 HX HY.
  destruct (zscore_entries HX) as (zx & Ezx & Hzx & _).
  destruct (zscore_entries HY) as (zy & Ezy & Hzy & _).
  destruct (@normalize_axis0_entries N J zx Hzx) as (Xnz & EX & HXnz & _); auto.
  destruct (@normalize_axis0_entries N K zy Hzy) as (Ynz & EY & HYnz & _); auto.
  destruct (matmul_spec (transpose_shape 0 HYnz) HXnz) as (P & EP & HP & _).
  exists zx, zy, Xnz, Ynz, P. repeat split; try assumption; try apply HXnz;
    try apply HYnz; try apply HP.
  unfold _compute_xcorr. rewrite Ezx; simpl. rewrite EX; simpl.
  rewrite Ezy; simpl. rewrite EY; simpl. rewrite EP; simpl.
  destruct HXnz as (-> & _). reflexivity.
Qed.

Lemma compute_xcorr_returns N J K (X Y : matrix R) :
  (1 <= N)%nat -> is_matrix N J X -> is_matrix N K Y ->
  exists C, _compute_xcorr X Y = Ok C /\ is_matrix K J C.
Proof.
  intros HN1 HX HY.
  destruct (compute_xcorr_steps HN1 HX HY)
    as (zx & zy & Xnz & Ynz & P & _ & _ & _ & _ & _ & _ & _ & HP & E).
  eexists; split; [exact E|]. now apply div_scalar_spec.
Qed.

(** C2: on an N x J matrix and an N x K matrix with N >= 2,
    [_compute_xcorr] is the product of the transpose of
    [normalize(zscore(Y))] with [normalize(zscore(X))], every entry divided
    by N - 1; the result has shape K x J, and its entry (k, j) is the dot
    product of column k of the first with column j of the second, over
    N - 1. *)
Theorem compute_xcorr_spec N J K (X Y : matrix R) :
  (2 <= N)%nat -> is_matrix N J X -> is_matrix N K Y ->
  exists zx zy Xnz Ynz P,
    zscore X = Ok zx /\ zscore Y = Ok zy /\
    normalize zx 0 = Ok Xnz /\ normalize zy 0 = Ok Ynz /\
    matmul (transpose 0 Ynz) Xnz = Ok P /\
    _compute_xcorr X Y = Ok (div_scalar P (IZR (Z.of_nat N - 1))) /\
    is_matrix K J (div_scalar P (IZR (Z.of_nat N - 1))) /\
    forall k j, (k < K)%nat -> (j < J)%nat ->
      get 0 (div_scalar P (IZR (Z.of_nat N - 1))) k j
      = dot (col 0 k Ynz) (col 0 j Xnz) / IZR (Z.of_nat N - 1).
Proof.
  intros HN2 HX HY.
  assert (HN1 : (1 <= N)%nat) by lia.
  destruct (compute_xcorr_steps HN1 HX HY)
    as (zx & zy & Xnz & Ynz & P & Ezx & Ezy & EX & EY & HXnz & HYnz & EP & HP & E).
  exists zx, zy, Xnz, Ynz, P. repeat split; try assumption;
    try apply (div_scalar_spec _ HP).
  intros k j Hk Hj.
  destruct (div_scalar_spec (IZR (Z.of_nat N - 1)) HP) as (_ & G).
  rewrite G by auto. f_equal.
  destruct (matmul_spec (transpose_shape 0 HYnz) HXnz) as (P' & EP' & _ & GP).
  rewrite EP in EP'. inversion EP'; subst P'.
  rewrite GP by auto. now rewrite (transpose_row 0 HYnz Hk).
Qed.

(** ** np.unique *)


Lemma insert_unique_In x l y : In y (insert_unique x l) <-> y = x \/ In y l.
Proof.
  induction l as [|h t IH]; simpl.
  - intuition.
  - destruct (Z.ltb_spec x h); [simpl; intuition|].
    destruct (Z.eqb_spec x h); [subst; simpl; intuition|].
    simpl. rewrite IH. intuition.
Qed.

Lemma insert_unique_sorted x l :
  StronglySorted Z.lt l -> StronglySorted Z.lt (insert_unique x l).
Proof.
  induction 1 as [|h t Hs IH Hall]; simpl.
  - repeat constructor.
  - destruct (Z.ltb_spec x h) as [Hlt|Hge].
    + constructor; [now constructor|]. constructor; auto.
      rewrite Forall_forall in *. intros y Hy. specialize (Hall y Hy). lia.
    + destruct (Z.eqb_spec x h) as [->|Hne]; [now constructor|].
      constructor; auto. apply Forall_forall. intros y Hy.
      apply insert_unique_In in Hy as [->|Hy]; [lia|].
      rewrite Forall_forall in Hall. auto.
Qed.

Lemma unique_In g y : In y (unique g) <-> In y g.
Proof.
  induction g as [|x g IH]; simpl; [tauto|].
  rewrite insert_unique_In, IH. intuition.
Qed.

Lemma unique_sorted g : StronglySorted Z.lt (unique g).
Proof.
  induction g as [|x g IH]; simpl; [constructor|].
  now apply insert_unique_sorted.
Qed.

Lemma unique_nil g : unique g = [] <-> g = [].
Proof.
  split; [|now intros ->].
  destruct g as [|x g]; auto. intros H.
  assert (Hin : In x (unique (x :: g))) by (apply unique_In; now left).
  rewrite H in Hin. destruct Hin.
Qed.

Lemma sorted_NoDup l : StronglySorted Z.lt l -> NoDup l.
Proof.
  induction 1 as [|h t Hs IH Hall]; constructor; auto.
  intros Hin. rewrite Forall_forall in Hall. specialize (Hall h Hin). lia.
Qed.

(** ** Comprehensions and stacking *)

Lemma mapM_Forall2 {A B} (f : A -> result B) (P : A -> B -> Prop) xs :
  (forall x, In x xs -> exists y, f x = Ok y /\ P x y) ->
  exists ys, mapM f xs = Ok ys /\ Forall2 P xs ys.
Proof.
  induction xs as [|x xs IH]; intros H; simpl.
  - exists []. auto.
  - destruct (H x (or_introl eq_refl)) as (y & Ey & Py).
    destruct IH as (ys & Eys & Pys); [intros; apply H; now right|].
    rewrite Ey, Eys; simpl. exists (y :: ys). auto.
Qed.

Lemma mapM_first_raises {A B} (f : A -> result B) x xs e :
  f x = Raise e -> mapM f (x :: xs) = Raise e.
Proof. intros H; simpl. now rewrite H. Qed.

Lemma flat_map_rows_length {T} K J (blocks : list (matrix T)) :
  Forall (is_matrix K J) blocks ->
  length (flat_map (@rows T) blocks) = (K * length blocks)%nat.
Proof.
  induction 1 as [|c cs (Hc & _) _ IH]; simpl; [lia|].
  rewrite length_app, IH. unfold nrows in Hc. rewrite Hc. lia.
Qed.

Lemma row_stack_spec {T} K J (blocks : list (matrix T)) :
  blocks <> [] -> Forall (is_matrix K J) blocks ->
  exists S, row_stack blocks = Ok S /\ rows S = concat (map (@rows T) blocks)
            /\ is_matrix (K * length blocks) J S.
Proof.
  intros Hne Hall. destruct blocks as [|b bs]; [congruence|].
  unfold row_stack.
  assert (Hb : ncols b = J) by (inversion Hall as [|? ? (_ & ? & _) _]; auto).
  replace (forallb _ bs) with true.
  2:{ symmetry. apply forallb_forall. intros b' Hb'. apply Nat.eqb_eq.
      rewrite Forall_forall in Hall.
      destruct (Hall b' (or_intror Hb')) as (_ & -> & _). auto. }
  eexists; split; [reflexivity|]. split; [apply flat_map_concat_map|].
  repeat split; simpl; auto.
  - apply (flat_map_rows_length Hall).
  - change (Forall (fun r => length r = J) (flat_map (@rows T) (b :: bs))).
    apply Forall_forall. intros r Hr. apply in_flat_map in Hr as (c & Hc & Hr).
    rewrite Forall_forall in Hall. destruct (Hall c Hc) as (_ & _ & Hrows).
    rewrite Forall_forall in Hrows. auto.
Qed.

(** ** Rows of a group *)

Lemma getitem_mask_group_rows {T} N J (A : matrix T) g grp :
  is_matrix N J A -> length g = N ->
  getitem_mask A (eq_mask g grp) = Ok (group_rows A g grp)
  /\ is_matrix (group_size g grp) J (group_rows A g grp).
Proof.
  intros (HN & HJ & Hall) Hg. unfold getitem_mask, eq_mask, group_rows.
  rewrite length_map, Hg, HN, Nat.eqb_refl. unfold nrows in HN.
  assert (Hsel : forall (rs : list (list T)) g,
    map snd (filter fst (combine (map (fun l => (l =? grp)%Z) g) rs))
    = map snd (filter (fun p => (fst p =? grp)%Z) (combine g rs))).
  { intros rs g'. revert rs. induction g' as [|l g' IH]; intros [|r rs];
      simpl; auto.
    destruct (l =? grp)%Z; simpl; now rewrite IH. }
  rewrite Hsel. split; [reflexivity|].
  repeat split; simpl; auto.
  - unfold nrows, group_size; simpl. rewrite length_map.
    assert (Hlen : length g = length (rows A)) by lia.
    clear - Hlen. revert Hlen. generalize (rows A).
    induction g as [|l g IH]; intros [|r rs] Hlen; simpl in *; try lia.
    destruct (Z.eqb_spec l grp), (Z.eq_dec l grp); try congruence; simpl;
      rewrite IH; auto.
  - apply Forall_forall. intros r Hr.
    apply in_map_iff in Hr as ((l, r0) & <- & Hin).
    apply filter_In in Hin as (Hin & _). apply in_combine_r in Hin.
    rewrite Forall_forall in Hall. now apply Hall.
Qed.

Lemma group_size_pos g grp : In grp g -> (1 <= group_size g grp)%nat.
Proof.
  intros Hin. unfold group_size.
  apply (count_occ_In Z.eq_dec) in Hin. lia.
Qed.

Lemma getitem_mask_mismatch {T} (A : matrix T) mask :
  length mask <> nrows A -> getitem_mask A mask = Raise IndexError.
Proof.
  intros H. unfold getitem_mask.
  now destruct (Nat.eqb_spec (length mask) (nrows A)).
Qed.

(** ** xcorr *)

Lemma compute_xcorr_mismatch Nx Ny J K (X Y : matrix R) :
  is_matrix Nx J X -> is_matrix Ny K Y -> Nx <> Ny ->
  shape_error (_compute_xcorr X Y).
Proof.
  intros HX HY Hne. unfold _compute_xcorr, shape_error.
  destruct (zscore_entries HX) as (zx & Ezx & Hzx & _).
  destruct (zscore_entries HY) as (zy & Ezy & Hzy & _).
  rewrite Ezx; simpl.
  destruct (normalize_axis0_cases Hzx) as [(Xnz & EX & HXnz)|(_ & EX)];
    rewrite EX; simpl; [|now right].
  rewrite Ezy; simpl.
  destruct (normalize_axis0_cases Hzy) as [(Ynz & EY & HYnz)|(_ & EY)];
    rewrite EY; simpl; [|now right].
  rewrite matmul_mismatch; simpl; [now left|].
  change (ncols (transpose 0 Ynz)) with (nrows Ynz).
  destruct HXnz as (-> & _). destruct HYnz as (-> & _). auto.
Qed.

Lemma xcorr_grouped N J K (X Y : matrix R) g :
  is_matrix N J X -> is_matrix N K Y -> length g = N -> (1 <= N)%nat ->
  exists blocks S,
    Forall2 (fun grp B =>
               _compute_xcorr (group_rows X g grp) (group_rows Y g grp) = Ok B
               /\ is_matrix K J B)
            (unique g) blocks
    /\ xcorr X Y (Some g) = Ok S
    /\ rows S = concat (map (@rows R) blocks)
    /\ is_matrix (K * length (unique g)) J S.
Proof.
  intros HX HY Hg HN1.
  set (f := fun grp =>
              Xg <- getitem_mask X (eq_mask g grp) ;;
              Yg <- getitem_mask Y (eq_mask g grp) ;;
              _compute_xcorr Xg Yg).
  destruct (@mapM_Forall2 _ _ f
              (fun grp B =>
                 _compute_xcorr (group_rows X g grp) (group_rows Y g grp) = Ok B
                 /\ is_matrix K J B) (unique g))
    as (blocks & Eb & Hb).
  { intros grp Hin. apply (proj1 (unique_In g grp)) in Hin.
    destruct (@getitem_mask_group_rows _ N J X g grp HX Hg) as (EX & HXg).
    destruct (@getitem_mask_group_rows _ N K Y g grp HY Hg) as (EY & HYg).
    destruct (compute_xcorr_returns (group_size_pos g grp Hin) HXg HYg)
      as (B & EB & HB).
    exists B. unfold f. rewrite EX; simpl. rewrite EY; simpl. auto. }
  assert (Hblocks : Forall (is_matrix K J) blocks).
  { clear - Hb. induction Hb as [|grp B l l' (_ & HB) _ IH]; constructor; auto. }
  assert (Hne : blocks <> []).
  { intros ->. inversion Hb as [Hu|]. symmetry in Hu.
    apply (proj1 (unique_nil g)) in Hu. subst g. simpl in *. lia. }
  destruct (row_stack_spec Hne Hblocks) as (S & ES & HSrows & HS).
  exists blocks, S. split; [exact Hb|].
  split; [unfold xcorr; fold f; rewrite Eb; exact ES|].
  split; [exact HSrows|].
  now rewrite (Forall2_length Hb).
Qed.

(** C5, for a grouping with at least one row: [xcorr(X, Y, grouping)] is
    the row-wise stack, over the distinct labels in ascending order, of
    [_compute_xcorr] applied to the rows of [X] and of [Y] that carry the
    label; its shape is (K * G, J); and [xcorr(X, Y, None)] is
    [_compute_xcorr(X, Y)]. *)
Theorem xcorr_is_stack_of_groups N J K (X Y : matrix R) g :
  is_matrix N J X -> is_matrix N K Y -> length g = N -> (1 <= N)%nat ->
  (forall grp, In grp g -> (2 <= group_size g grp)%nat) ->
  (exists labels blocks S,
      StronglySorted Z.lt labels
      /\ (forall l, In l labels <-> In l g)
      /\ Forall2 (fun grp B =>
                    _compute_xcorr (group_rows X g grp) (group_rows Y g grp)
                    = Ok B
                    /\ is_matrix K J B)
                 labels blocks
      /\ xcorr X Y (Some g) = Ok S
      /\ rows S = concat (map (@rows R) blocks)
      /\ is_matrix (K * length labels) J S)
  /\ xcorr X Y None = _compute_xcorr X Y.
Proof.
  intros HX HY Hg HN1 _. split; [|reflexivity].
  destruct (@xcorr_grouped N J K X Y g HX HY Hg HN1)
    as (blocks & S & Hb & ES & Hrows & HS).
  exists (unique g), blocks, S.
  split; [apply unique_sorted|]. split; [intros l; apply unique_In|]. auto.
Qed.

(** C1, as the code has it: [xcorr] raises a shape error (ValueError or
    IndexError) when the row counts of [X], [Y] and [grouping] are not all
    equal; when they are equal and at least 1 it returns, whatever the
    sizes of the groups. *)
Theorem xcorr_row_count_errors Nx Ny J K (X Y : matrix R) grouping :
  is_matrix Nx J X -> is_matrix Ny K Y ->
  (match grouping with
   | None => Nx <> Ny
   | Some g => ~ (Nx = Ny /\ Ny = length g)
   end -> shape_error (xcorr X Y grouping))
  /\ (Nx = Ny -> (1 <= Nx)%nat ->
      match grouping with
      | None => True
      | Some g => length g = Nx
      end -> returns (xcorr X Y grouping)).
Proof.
  intros HX HY. split.
  - destruct grouping as [g|]; intros Hmis; simpl.
    + destruct (unique g) as [|grp rest] eqn:Eu.
      { simpl. now left. }
      destruct (Nat.eq_dec (length g) Nx) as [Hgx|Hgx].
      * assert (Hgy : length g <> Ny) by lia.
        destruct (@getitem_mask_group_rows _ Nx J X g grp HX Hgx) as (EX & _).
        rewrite mapM_first_raises with (e := IndexError); [now right|].
        rewrite EX; simpl. rewrite getitem_mask_mismatch; auto.
        unfold eq_mask. rewrite length_map. destruct HY as (-> & _). auto.
      * rewrite mapM_first_raises with (e := IndexError); [now right|].
        rewrite getitem_mask_mismatch; auto.
        unfold eq_mask. rewrite length_map. destruct HX as (-> & _). auto.
    + now apply compute_xcorr_mismatch with (Nx := Nx) (Ny := Ny) (J := J) (K := K).
  - intros <- HN1 Hg. destruct grouping as [g|].
    + destruct (@xcorr_grouped Nx J K X Y g HX HY Hg HN1)
        as (blocks & S & _ & ES & _).
      now exists S.
    + destruct (compute_xcorr_returns HN1 HX HY) as (C & EC & _).
      now exists C.
Qed.

(** ** dummy_code *)

Lemma nth_indicator g grp i :
  (i < length g)%nat ->
  nth i (astype_int (eq_mask g grp)) 0%Z
  = if (nth i g 0 =? grp)%Z then 1%Z else 0%Z.
Proof.
  intros Hi. unfold astype_int, eq_mask. rewrite map_map.
  now rewrite nth_map_in with (d' := 0%Z).
Qed.

Lemma dummy_code_entries g :
  g <> [] ->
  exists D, dummy_code g = Ok D
    /\ is_matrix (length g) (length (unique g)) D
    /\ forall i, (i < length g)%nat ->
         nth i (rows D) []
         = map (fun u => if (nth i g 0 =? u)%Z then 1%Z else 0%Z) (unique g).
Proof.
  intros Hne. unfold dummy_code, column_stack.
  destruct (unique g) as [|u us] eqn:Eu.
  { apply (proj1 (unique_nil g)) in Eu. congruence. }
  set (ind := fun grp => astype_int (eq_mask g grp)).
  change (map ind (u :: us)) with (ind u :: map ind us). cbv iota beta.
  assert (Hlen : forall grp, length (ind grp) = length g).
  { intros grp. unfold ind, astype_int, eq_mask. now rewrite !length_map. }
  replace (forallb _ (map ind us)) with true.
  2:{ symmetry. apply forallb_forall. intros c Hc.
      apply in_map_iff in Hc as (grp & <- & _).
      apply Nat.eqb_eq. now rewrite !Hlen. }
  eexists; split; [reflexivity|].
  assert (Hrow : forall i, (i < length g)%nat ->
    nth i (rows (transpose 0%Z (Mat (length (ind u)) (ind u :: map ind us)))) []
    = map (fun u0 => if (nth i g 0 =? u0)%Z then 1%Z else 0%Z) (u :: us)).
  { intros i Hi. simpl rows at 1. simpl ncols. rewrite Hlen.
    rewrite nth_map_seq by auto. unfold col. simpl rows.
    change (ind u :: map ind us) with (map ind (u :: us)).
    rewrite map_map. apply map_ext. intros grp. unfold ind.
    now apply nth_indicator. }
  split; [|exact Hrow].
  repeat split.
  - simpl. unfold nrows; simpl. now rewrite length_map, length_seq, Hlen.
  - simpl. unfold nrows; simpl. now rewrite length_map.
  - apply Forall_forall. intros r Hr.
    apply In_nth with (d := []) in Hr as (i & Hi & <-).
    simpl rows in Hi. simpl ncols in Hi.
    rewrite length_map, length_seq, Hlen in Hi.
    rewrite Hrow by auto. now rewrite length_map.
Qed.

Lemma Zsum_indicator x l :
  NoDup l ->
  Zsum (map (fun u => if (x =? u)%Z then 1%Z else 0%Z) l)
  = if in_dec Z.eq_dec x l then 1%Z else 0%Z.
Proof.
  induction 1 as [|y t Hy Ht IH]; simpl; auto.
  rewrite IH. destruct (Z.eqb_spec x y) as [->|Hne].
  - destruct (Z.eq_dec y y); [|congruence].
    destruct (in_dec Z.eq_dec y t); [contradiction|reflexivity].
  - destruct (Z.eq_dec y x); [congruence|].
    destruct (in_dec Z.eq_dec x t); reflexivity.
Qed.

(** C7, for a grouping with at least one row: [dummy_code] returns an
    N x G matrix of zeros and ones, one column per distinct label in
    ascending order; entry (i, k) is 1 exactly when row i carries the k-th
    smallest label; every row sums to 1. *)
Theorem dummy_code_indicator g :
  g <> [] ->
  exists labels D,
    StronglySorted Z.lt labels
    /\ (forall l, In l labels <-> In l g)
    /\ dummy_code g = Ok D
    /\ is_matrix (length g) (length labels) D
    /\ (forall i k, (i < length g)%nat -> (k < length labels)%nat ->
          (get 0%Z D i k = 1%Z /\ nth i g 0%Z = nth k labels 0%Z)
          \/ (get 0%Z D i k = 0%Z /\ nth i g 0%Z <> nth k labels 0%Z))
    /\ (forall i, (i < length g)%nat -> Zsum (nth i (rows D) []) = 1%Z).
Proof.
  intros Hne. destruct (dummy_code_entries Hne) as (D & E & HD & Hrow).
  exists (unique g), D.
  split; [apply unique_sorted|]. split; [intros l; apply unique_In|].
  split; [exact E|]. split; [exact HD|]. split.
  - intros i k Hi Hk. unfold get. rewrite Hrow by auto.
    rewrite nth_map_in with (d' := 0%Z) by auto.
    destruct (Z.eqb_spec (nth i g 0%Z) (nth k (unique g) 0%Z)); auto.
  - intros i Hi. rewrite Hrow by auto.
    rewrite Zsum_indicator by (apply sorted_NoDup, unique_sorted).
    destruct (in_dec Z.eq_dec (nth i g 0%Z) (unique g)) as [|Hn]; auto.
    exfalso. apply Hn, unique_In. now apply nth_In.
Qed.

(** ** reverse_dummy_code *)

Lemma combine_map_map {A B C} (a : A -> B) (b : A -> C) l :
  combine (map a l) (map b l) = map (fun x => (a x, b x)) l.
Proof. induction l as [|x l IH]; simpl; auto. now rewrite IH. Qed.

Lemma concat_map_singleton {A B} (f : A -> B) l :
  concat (map (fun x => [f x]) l) = map f l.
Proof. induction l as [|x l IH]; simpl; auto. now rewrite IH. Qed.

Lemma enumerate1_map_seq {A} (f : nat -> A) n :
  enumerate1 (map f (seq 0 n))
  = map (fun k => (Z.of_nat (S k), f k)) (seq 0 n).
Proof.
  unfold enumerate1. rewrite length_map, length_seq, <- seq_shift, map_map.
  apply combine_map_map.
Qed.

Lemma reverse_dummy_code_spec {T} `{Dtype T} N G (Y : matrix T) :
  is_matrix N G Y -> (1 <= G)%nat ->
  reverse_dummy_code Y = Ok (map (weighted_row_sum Y G) (seq 0 N)).
Proof.
  intros HY HG. pose proof HY as (HN & HJ & _).
  unfold reverse_dummy_code. simpl rows at 1. rewrite HJ.
  rewrite enumerate1_map_seq, map_map. cbv beta iota delta [fst snd].
  set (scaled := fun k => map (fun y => dscale y (Z.of_nat (S k))) (col dzero k Y)).
  assert (Hlen : forall k, length (scaled k) = N).
  { intros k. unfold scaled. now rewrite length_map, col_length. }
  set (blocks := map (fun k => atleast_2d (scaled k)) (seq 0 G)).
  assert (Hall : Forall (is_matrix 1 N) blocks).
  { apply Forall_forall. intros b Hb. apply in_map_iff in Hb as (k & <- & _).
    unfold atleast_2d. repeat split; simpl; auto. }
  assert (Hne : blocks <> []).
  { unfold blocks. destruct G; [lia|]. discriminate. }
  destruct (row_stack_spec Hne Hall) as (St & ES & HSrows & HS).
  change (bind (row_stack blocks) (fun stacked => Ok (sum_axis0 stacked))
          = Ok (map (weighted_row_sum Y G) (seq 0 N))).
  rewrite ES; simpl. f_equal.
  unfold sum_axis0. destruct HS as (_ & -> & _).
  apply map_ext_in. intros i Hi. apply in_seq in Hi.
  unfold weighted_row_sum. f_equal.
  unfold col. rewrite HSrows. unfold blocks. rewrite map_map.
  unfold atleast_2d. simpl rows.
  rewrite (concat_map_singleton scaled), map_map, <- seq_shift, map_map.
  apply map_ext. intros k. unfold scaled.
  rewrite nth_map_in with (d' := dzero) by (rewrite col_length; lia).
  rewrite nth_col by lia. simpl. now rewrite Nat.sub_0_r.
Qed.

(** C9, for a matrix with at least one column: [reverse_dummy_code]
    returns the vector whose i-th entry is the sum over n = 1..G of
    [Y[i, n-1]] times n, whether or not the rows are one-hot. *)
Theorem reverse_dummy_code_weighted_sum {T} `{Dtype T} N G (Y : matrix T) :
  is_matrix N G Y -> (1 <= G)%nat ->
  exists v, reverse_dummy_code Y = Ok v /\ length v = N
            /\ forall i, (i < N)%nat ->
                 nth i v dzero = weighted_row_sum Y G i.
Proof.
  intros HY HG. exists (map (weighted_row_sum Y G) (seq 0 N)).
  split; [now apply reverse_dummy_code_spec|].
  split; [now rewrite length_map, length_seq|].
  intros i Hi. now apply nth_map_seq.
Qed.

(** ** The round trip through dummy coding *)

Lemma rank_nonneg l x : (0 <= rank l x)%Z.
Proof.
  induction l as [|y t IH]; simpl; [lia|].
  destruct (x =? y)%Z; [lia|]. destruct (rank t x =? 0)%Z; lia.
Qed.

Lemma rank_zero l x : rank l x = 0%Z <-> ~ In x l.
Proof.
  induction l as [|y t IH]; simpl; [tauto|].
  pose proof (rank_nonneg t x) as Hr.
  destruct (Z.eqb_spec x y) as [->|Hne].
  - split; [discriminate|]. intros Hn. exfalso. apply Hn. now left.
  - destruct (Z.eqb_spec (rank t x) 0) as [E|E].
    + split; auto. intros _ [Hy|Hin]; [congruence|]. now apply IH in E.
    + split; [lia|]. intros Hn. exfalso. apply E, IH. tauto.
Qed.

Lemma rank_In l x :
  In x l ->
  (1 <= rank l x <= Z.of_nat (length l))%Z
  /\ nth (Z.to_nat (rank l x) - 1) l 0%Z = x.
Proof.
  induction l as [|y t IH]; [intros []|]. intros Hin.
  change (length (y :: t)) with (S (length t)). simpl rank.
  destruct (Z.eqb_spec x y) as [->|Hne].
  - split; [lia|]. reflexivity.
  - destruct Hin as [Hy|Hin]; [congruence|].
    destruct (IH Hin) as (Hr & Hnth).
    destruct (Z.eqb_spec (rank t x) 0) as [E|E]; [lia|].
    split; [lia|].
    replace (Z.to_nat (rank t x + 1) - 1)%nat
      with (S (Z.to_nat (rank t x) - 1)) by lia.
    exact Hnth.
Qed.

Lemma fold_left_Zadd l a : fold_left Z.add l a = (a + Zsum l)%Z.
Proof.
  revert a; induction l as [|x l IH]; intros a; simpl; [lia|].
  rewrite IH. lia.
Qed.

(** The weighted sum of a one-hot row is the rank of the row's label. *)
Lemma weighted_indicator x l : forall s,
  NoDup l ->
  Zsum (map (fun n => ((if (x =? nth (n - s) l 0)%Z then 1 else 0)
                       * Z.of_nat n)%Z)
            (seq s (length l)))
  = if (rank l x =? 0)%Z then 0%Z else (rank l x + Z.of_nat s - 1)%Z.
Proof.
  induction l as [|y t IH]; intros s Hnd; [reflexivity|].
  inversion Hnd as [|? ? Hy Ht]; subst.
  change (length (y :: t)) with (S (length t)).
  cbn [seq map Zsum fold_right]. fold (Zsum).
  rewrite Nat.sub_diag. cbn [nth].
  rewrite map_ext_in with
    (g := fun n => ((if (x =? nth (n - S s) t 0)%Z then 1 else 0)
                    * Z.of_nat n)%Z).
  2:{ intros n Hn. apply in_seq in Hn.
      replace (n - s)%nat with (S (n - S s)) by lia. reflexivity. }
  fold (Zsum (map (fun n => ((if (x =? nth (n - S s) t 0)%Z then 1 else 0)
                             * Z.of_nat n)%Z) (seq (S s) (length t)))).
  rewrite (IH (S s) Ht). simpl rank.
  pose proof (rank_nonneg t x) as Hr.
  destruct (Z.eqb_spec x y) as [->|Hne].
  - apply (proj2 (rank_zero t y)) in Hy. rewrite Hy.
    change (0 =? 0)%Z with true. change (1 =? 0)%Z with false. cbv iota. lia.
  - destruct (Z.eqb_spec (rank t x) 0) as [E|E];
      [change (0 =? 0)%Z with true; cbv iota; lia|].
    destruct (Z.eqb_spec (rank t x + 1) 0); lia.
Qed.

Lemma roundtrip_entries g :
  g <> [] ->
  exists D, dummy_code g = Ok D
    /\ reverse_dummy_code D
       = Ok (map (fun i => rank (unique g) (nth i g 0%Z)) (seq 0 (length g))).
Proof.
  intros Hne. destruct (dummy_code_entries Hne) as (D & E & HD & Hrow).
  exists D. split; [exact E|].
  assert (HG : (1 <= length (unique g))%nat).
  { destruct (unique g) eqn:Eu; simpl; [|lia].
    apply (proj1 (unique_nil g)) in Eu. congruence. }
  rewrite (reverse_dummy_code_spec HD HG). f_equal.
  apply map_ext_in. intros i Hi. apply in_seq in Hi.
  unfold weighted_row_sum. simpl dadd. simpl dzero. simpl dscale.
  rewrite fold_left_Zadd, Z.add_0_l.
  rewrite map_ext_in with
    (g := fun n => ((if (nth i g 0 =? nth (n - 1) (unique g) 0)%Z
                     then 1 else 0) * Z.of_nat n)%Z).
  2:{ intros n Hn. apply in_seq in Hn. unfold get.
      rewrite Hrow by lia.
      rewrite nth_map_in with (d' := 0%Z) by lia. reflexivity. }
  rewrite weighted_indicator by (apply sorted_NoDup, unique_sorted).
  destruct (Z.eqb_spec (rank (unique g) (nth i g 0%Z)) 0); lia.
Qed.

(** C6, for a grouping with at least one row: the round trip
    [reverse_dummy_code(dummy_code(g))] gives every row the 1-based rank
    of its label among the distinct labels in ascending order; two rows
    get the same value exactly when they had the same label. *)
Theorem dummy_code_roundtrip g :
  g <> [] ->
  exists labels D v,
    StronglySorted Z.lt labels
    /\ (forall l, In l labels <-> In l g)
    /\ dummy_code g = Ok D
    /\ reverse_dummy_code D = Ok v
    /\ length v = length g
    /\ (forall i, (i < length g)%nat ->
          nth i v 0%Z = rank labels (nth i g 0%Z)
          /\ (1 <= nth i v 0 <= Z.of_nat (length labels))%Z
          /\ nth (Z.to_nat (nth i v 0%Z) - 1) labels 0%Z = nth i g 0%Z)
    /\ (forall i j, (i < length g)%nat -> (j < length g)%nat ->
          nth i v 0%Z = nth j v 0%Z <-> nth i g 0%Z = nth j g 0%Z).
Proof.
  intros Hne. destruct (roundtrip_entries Hne) as (D & E & Ev).
  set (v := map (fun i => rank (unique g) (nth i g 0%Z)) (seq 0 (length g))) in *.
  assert (Hv : forall i, (i < length g)%nat ->
                 nth i v 0%Z = rank (unique g) (nth i g 0%Z)).
  { intros i Hi. unfold v. now rewrite nth_map_seq. }
  assert (Hin : forall i, (i < length g)%nat -> In (nth i g 0%Z) (unique g)).
  { intros i Hi. apply unique_In. now apply nth_In. }
  exists (unique g), D, v.
  split; [apply unique_sorted|]. split; [intros l; apply unique_In|].
  split; [exact E|]. split; [exact Ev|].
  split; [unfold v; now rewrite length_map, length_seq|]. split.
  - intros i Hi. rewrite Hv by auto.
    destruct (rank_In _ _ (Hin i Hi)) as (Hr & Hnth). auto.
  - intros i j Hi Hj. rewrite !Hv by auto. split.
    + intros Heq.
      destruct (rank_In _ _ (Hin i Hi)) as (_ & Hni).
      destruct (rank_In _ _ (Hin j Hj)) as (_ & Hnj).
      rewrite <- Hni, <- Hnj at 1. now rewrite Heq.
    + now intros ->.
Qed.

(** ** get_seed *)

(** C8, as the code has it: an integer seed between 0 and 2**32 - 1 gives
    a generator that did not exist before, seeded with that integer, and
    leaves the existing generators as they were; an integer outside that
    range makes the constructor raise; a generator instance is returned
    as it is; None and every other value give the shared [np.random]. *)
Theorem get_seed_resolves (seed : pyobj) (st : rng_store) :
  match seed with
  | PyInt n =>
      ((0 <= n <= 2 ^ 32 - 1)%Z ->
       exists id st',
         get_seed seed st = Ok (Instance id, st')
         /\ nth_error st id = None
         /\ nth_error st' id = Some n
         /\ forall id', (id' < length st)%nat ->
                        nth_error st' id' = nth_error st id')
      /\ (~ (0 <= n <= 2 ^ 32 - 1)%Z -> get_seed seed st = Raise ValueError)
  | PyRandomState id => get_seed seed st = Ok (Instance id, st)
  | PyNone | PyFloat _ | PyStr _ => get_seed seed st = Ok (NpRandom, st)
  end.
Proof.
  destruct seed as [|n|x|s|id]; try reflexivity.
  unfold get_seed, RandomState; simpl. split; intros Hn.
  - replace ((0 <=? n)%Z && (n <=? 4294967295)%Z) with true
      by (symmetry; apply andb_true_iff; split; apply Z.leb_le; lia).
    exists (length st), (st ++ [n]). split; [reflexivity|].
    split; [apply nth_error_None; lia|].
    split; [now rewrite nth_error_app2, Nat.sub_diag by lia|].
    intros id' Hid. now rewrite nth_error_app1.
  - replace ((0 <=? n)%Z && (n <=? 4294967295)%Z) with false; auto.
    symmetry. apply andb_false_iff.
    destruct (Z.leb_spec 0 n); [|now left]. right. apply Z.leb_gt. lia.
Qed.

(** [get_seed(-1)] raises. *)
Lemma get_seed_negative_raises :
  ~ returns (get_seed (PyInt (-1)) []).
Proof. intros (a & Ha). discriminate Ha. Qed.

(** ** Runs on the sample inputs *)

Lemma X11_shape : is_matrix 1 1 Sample.X11.
Proof. repeat split; repeat constructor. Qed.
Lemma Y11_shape : is_matrix 1 1 Sample.Y11.
Proof. repeat split; repeat constructor. Qed.
Lemma X01_shape : is_matrix 0 1 Sample.X01.
Proof. repeat split; repeat constructor. Qed.
Lemma I20_shape : is_matrix 2 0 Sample.I20.
Proof. repeat split; repeat constructor. Qed.

(** C4 at a matrix with one column and no rows: the column has norm zero,
    and [normalize] raises instead of returning the 0 x 1 matrix. *)
Theorem normalize_empty_raises :
  is_matrix 0 1 Sample.X01 /\ norm (col 0 0 Sample.X01) = 0
  /\ normalize Sample.X01 0 = Raise IndexError.
Proof.
  split; [exact X01_shape|]. split; [apply norm_nil|].
  apply (normalize_no_rows_raises X01_shape). lia.
Qed.

(** One row in one group: no exception. *)
Lemma xcorr_single_row_group_returns :
  is_matrix 1 1 Sample.X11 /\ is_matrix 1 1 Sample.Y11
  /\ length Sample.g1 = 1%nat /\ group_size Sample.g1 5%Z = 1%nat
  /\ returns (xcorr Sample.X11 Sample.Y11 (Some Sample.g1))
  /\ ~ raises (xcorr Sample.X11 Sample.Y11 (Some Sample.g1)).
Proof.
  split; [exact X11_shape|]. split; [exact Y11_shape|].
  split; [reflexivity|]. split; [reflexivity|].
  destruct (@xcorr_grouped 1 1 1 Sample.X11 Sample.Y11 Sample.g1
              X11_shape Y11_shape eq_refl (le_n 1))
    as (blocks & S & _ & ES & _).
  split; [now exists S|].
  intros (e & He). rewrite ES in He. discriminate He.
Qed.

(** No rows and an empty grouping: there is nothing to stack. *)
Lemma xcorr_empty_grouping_raises :
  is_matrix 0 1 Sample.X01 /\ length (@nil label) = 0%nat
  /\ (forall grp, In grp (@nil label) -> (2 <= group_size [] grp)%nat)
  /\ xcorr Sample.X01 Sample.X01 (Some []) = Raise ValueError.
Proof.
  split; [exact X01_shape|]. split; [reflexivity|].
  split; [intros grp []|]. reflexivity.
Qed.

Lemma dummy_code_empty_raises : dummy_code [] = Raise ValueError.
Proof. reflexivity. Qed.

Lemma roundtrip_empty_raises :
  (D <- dummy_code [] ;; reverse_dummy_code D) = Raise ValueError.
Proof. reflexivity. Qed.

Lemma reverse_dummy_code_no_columns_raises :
  is_matrix 2 0 Sample.I20 /\ reverse_dummy_code Sample.I20 = Raise ValueError.
Proof. split; [exact I20_shape|reflexivity]. Qed.

(** The documentation's example of dummy coding. *)
Example dummy_code_g5 :
  dummy_code Sample.g5
  = Ok (Mat 3 [[1; 0; 0]; [1; 0; 0]; [0; 1; 0]; [0; 0; 1]; [0; 1; 0]]%Z).
Proof. reflexivity. Qed.

Example roundtrip_g5 :
  (D <- dummy_code Sample.g5 ;; reverse_dummy_code D) = Ok [1; 1; 2; 3; 2]%Z.
Proof. reflexivity. Qed.

(** An all-zero row gives 0, a row with ones in columns 1 and 3 gives 4. *)
Example reverse_dummy_code_I23 :
  reverse_dummy_code Sample.I23 = Ok [0; 4]%Z.
Proof. reflexivity. Qed.

(** ** A run of zscore by hand *)

(** [zscore([[1, 5], [3, 5]])] is [[[-1, 0], [1, 0]]]: the first column has
    mean 2 and standard deviation 1, the second is constant. *)
Example zscore_X22 :
  exists Zm, zscore Sample.X22 = Ok Zm /\ ncols Zm = 2%nat
             /\ rows Zm = [[-1; 0]; [1; 0]].
Proof.
  assert (HX : is_matrix 2 2 Sample.X22) by (repeat split; repeat constructor).
  destruct (zscore_entries HX) as (Zm & E & HZ & G).
  exists Zm. split; [exact E|]. split; [apply HZ|].
  rewrite (rows_as_get 0 HZ). cbn [seq map].
  rewrite !G by lia.
  assert (Hm0 : mean (col 0 0 Sample.X22) = 2).
  { unfold mean, col, Rsum; simpl. lra. }
  assert (Hs0 : std (col 0 0 Sample.X22) = 1).
  { unfold std. rewrite Hm0. unfold mean, col, Rsum; simpl.
    replace ((1 - 2) * (1 - 2) + ((3 - 2) * (3 - 2) + 0)) with (1 + 1) by lra.
    replace ((1 + 1) / (1 + 1)) with 1 by lra. apply sqrt_1. }
  assert (Hs1 : std (col 0 1 Sample.X22) = 0).
  { unfold std, mean, col, Rsum; simpl.
    replace ((5 + (5 + 0)) / (1 + 1)) with 5 by lra.
    replace (((5 - 5) * (5 - 5) + ((5 - 5) * (5 - 5) + 0)) / (1 + 1)) with 0
      by lra.
    apply sqrt_0. }
  rewrite Hm0, Hs0, Hs1.
  replace (Reqb 1 0) with false by (symmetry; apply Reqb_false; lra).
  replace (Reqb 0 0) with true by (symmetry; now apply Reqb_true).
  unfold get; simpl. repeat f_equal; lra.
Qed.

(** ** Runs in double precision *)

(** Three tenths add up to 0.30000000000000004, so the mean of the first
    column is computed as 0.10000000000000002 and its standard deviation
    as 1.39e-17, which is not zero: the column comes out as -1 in every
    row.  The standard deviation of the column of fives is computed as
    zero, and the column comes out as zeros. *)
Example zscore_T32 :
  Rounded.zscore Sample.T32 = Ok (Sample.T32_zscore, false).
Proof. vm_compute. reflexivity. Qed.

(** Without the assignments at [zero_items] an entry of a column of fives
    would be 0/0, which is a nan. *)
Example fives_unguarded_nan :
  feq0 (fstd Sample.fives) = true
  /\ PrimFloat.is_nan (fdiv (fsub (nth 0 Sample.fives fzero) (fmean Sample.fives))
                            (fstd Sample.fives)) = true.
Proof. split; vm_compute; reflexivity. Qed.

(** The squares of the two entries underflow to zero and so does the norm
    of the column: the first entry is reset, the second is returned as it
    is. *)
Example normalize_U21 :
  Rounded.normalize Sample.U21 0 = Ok (Sample.U21_normalize, false).
Proof. vm_compute. reflexivity. Qed.

(** ** The theorems at the sample inputs *)


Lemma compute_xcorr_spec_witness :
  (2 <= 2)%nat /\ is_matrix 2 2 Sample.X22 /\ is_matrix 2 1 Sample.Y21
  /\ exists C, _compute_xcorr Sample.X22 Sample.Y21 = Ok C /\ is_matrix 1 2 C.
Proof.
  assert (H2 : (2 <= 2)%nat) by lia.
  assert (HX : is_matrix 2 2 Sample.X22) by (repeat split; repeat constructor).
  assert (HY : is_matrix 2 1 Sample.Y21) by (repeat split; repeat constructor).
  split; [exact H2|]. split; [exact HX|]. split; [exact HY|].
  destruct (@compute_xcorr_spec 2 2 1 Sample.X22 Sample.Y21 H2 HX HY)
    as (zx & zy & Xnz & Ynz & P & _ & _ & _ & _ & _ & E & HC & _).
  eexists; split; [exact E|exact HC].
Defined.

Lemma xcorr_row_count_errors_witness :
  is_matrix 2 2 Sample.X22 /\ is_matrix 3 1 Sample.Y31
  /\ shape_error (xcorr Sample.X22 Sample.Y31 None).
Proof.
  assert (HX : is_matrix 2 2 Sample.X22) by (repeat split; repeat constructor).
  assert (HY : is_matrix 3 1 Sample.Y31) by (repeat split; repeat constructor).
  split; [exact HX|]. split; [exact HY|].
  apply (proj1 (@xcorr_row_count_errors 2 3 2 1 Sample.X22 Sample.Y31 None HX HY)).
  lia.
Defined.

Lemma xcorr_is_stack_of_groups_witness :
  is_matrix 4 1 Sample.X41 /\ is_matrix 4 1 Sample.Y41
  /\ length Sample.g4 = 4%nat
  /\ (forall grp, In grp Sample.g4 -> (2 <= group_size Sample.g4 grp)%nat)
  /\ exists S, xcorr Sample.X41 Sample.Y41 (Some Sample.g4) = Ok S
               /\ is_matrix 2 1 S.
Proof.
  assert (HX : is_matrix 4 1 Sample.X41) by (repeat split; repeat constructor).
  assert (HY : is_matrix 4 1 Sample.Y41) by (repeat split; repeat constructor).
  assert (Hg : forall grp, In grp Sample.g4 ->
                           (2 <= group_size Sample.g4 grp)%nat).
  { intros grp [<-|[<-|[<-|[<-|[]]]]]; vm_compute; lia. }
  assert (H1 : (1 <= 4)%nat) by lia.
  split; [exact HX|]. split; [exact HY|]. split; [reflexivity|].
  split; [exact Hg|].
  destruct (proj1 (@xcorr_is_stack_of_groups 4 1 1 Sample.X41 Sample.Y41
                     Sample.g4 HX HY eq_refl H1 Hg))
    as (labels & blocks & S & Hs & Hl & Hb & ES & _ & HS).
  exists S. split; [exact ES|].
  assert (Hlen : length labels = 2%nat).
  { destruct (@xcorr_grouped 4 1 1 Sample.X41 Sample.Y41 Sample.g4
                HX HY eq_refl H1) as (b' & S' & _ & ES' & _ & HS').
    rewrite ES in ES'. inversion ES'; subst S'.
    destruct HS as (HS & _), HS' as (HS' & _). rewrite HS in HS'.
    simpl in HS'. lia. }
  now rewrite Hlen in HS.
Defined.

Lemma dummy_code_indicator_witness :
  Sample.g5 <> []
  /\ exists D, dummy_code Sample.g5 = Ok D /\ is_matrix 5 3 D.
Proof.
  assert (Hne : Sample.g5 <> []) by discriminate.
  split; [exact Hne|].
  destruct (@dummy_code_indicator Sample.g5 Hne)
    as (labels & D & _ & _ & E & HD & _).
  exists D. split; [exact E|].
  rewrite dummy_code_g5 in E. inversion E; subst D.
  repeat split; repeat constructor.
Defined.

Lemma dummy_code_roundtrip_witness :
  Sample.g5 <> []
  /\ exists D v, dummy_code Sample.g5 = Ok D /\ reverse_dummy_code D = Ok v
                 /\ length v = 5%nat.
Proof.
  assert (Hne : Sample.g5 <> []) by discriminate.
  split; [exact Hne|].
  destruct (@dummy_code_roundtrip Sample.g5 Hne)
    as (labels & D & v & _ & _ & E & Ev & Hlen & _).
  exists D, v. auto.
Defined.

Lemma reverse_dummy_code_weighted_sum_witness :
  is_matrix 2 3 Sample.I23 /\ (1 <= 3)%nat
  /\ exists v, reverse_dummy_code Sample.I23 = Ok v /\ length v = 2%nat
               /\ forall i, (i < 2)%nat ->
                    nth i v 0%Z = weighted_row_sum Sample.I23 3 i.
Proof.
  assert (HY : is_matrix 2 3 Sample.I23) by (repeat split; repeat constructor).
  assert (HG : (1 <= 3)%nat) by lia.
  split; [exact HY|]. split; [exact HG|].
  exact (@reverse_dummy_code_weighted_sum Z Dtype_int 2 3 Sample.I23 HY HG).
Defined.

(** ** The store: no call changes an object it did not make *)

Section Frame.
Import Store.
Local Open Scope store_scope.
Variable s0 : store.

Lemma extends_refl : extends s0 s0.
Proof. split; [lia|]. intros l _. reflexivity. Qed.

Lemma preserves_ret {A} (a : A) (Q : A -> Prop) :
  Q a -> preserves s0 (ret a) Q.
Proof.
  intros HQ s Hs; simpl. split; auto. intros a' E. inversion E; subst; auto.
Qed.

Lemma preserves_lift {A} (r : result A) :
  preserves s0 (lift r) (fun _ => True).
Proof. intros s Hs; simpl. auto. Qed.

Lemma preserves_weaken {A} (m : M A) (Q Q' : A -> Prop) :
  preserves s0 m Q -> (forall a, Q a -> Q' a) -> preserves s0 m Q'.
Proof. intros Hm HQ s Hs. destruct (Hm s Hs) as (H1 & H2). split; auto. Qed.

Lemma preserves_bind {A B} (m : M A) (k : A -> M B) Q Q' :
  preserves s0 m Q -> (forall a, Q a -> preserves s0 (k a) Q') ->
  preserves s0 (bind m k) Q'.
Proof.
  intros Hm Hk s Hs. destruct (Hm s Hs) as (H1 & H2).
  unfold bind. destruct (m s) as ([a|e], s1); simpl in *.
  - apply (Hk a); auto.
  - split; auto. discriminate.
Qed.

Lemma preserves_alloc c : preserves s0 (alloc c) (fresh s0).
Proof.
  intros s (Hlen & Hun); simpl. split.
  - split; [rewrite length_app; simpl; lia|].
    intros l Hl. rewrite nth_error_app1 by lia. auto.
  - intros a E. inversion E; subst. exact Hlen.
Qed.

Lemma preserves_read l : preserves s0 (read l) (fun _ => True).
Proof.
  intros s Hs. unfold read. destruct (nth_error s l); simpl; auto.
Qed.

Lemma nth_error_update {T} (l : list T) i x k :
  k <> i -> nth_error (update l i x) k = nth_error l k.
Proof.
  revert i k; induction l as [|h t IH]; intros [|i] [|k] Hne; simpl; auto;
    try congruence.
Qed.

Lemma preserves_write l c :
  fresh s0 l -> preserves s0 (write l c) (fun _ => True).
Proof.
  intros Hl s (Hlen & Hun). unfold write.
  destruct (l <? length s)%nat; simpl; split; auto; try (split; auto).
  - now rewrite update_length.
  - intros k Hk. rewrite nth_error_update; auto. unfold fresh in Hl. lia.
Qed.

Lemma preserves_mapM {A B} (f : A -> M B) (Q : B -> Prop) xs :
  (forall x, preserves s0 (f x) Q) -> preserves s0 (mapM f xs) (Forall Q).
Proof.
  intros Hf. induction xs as [|x xs IH]; simpl.
  - now apply preserves_ret.
  - eapply preserves_bind; [apply Hf|]. intros y Hy.
    eapply preserves_bind; [apply IH|]. intros ys Hys.
    apply preserves_ret. now constructor.
Qed.

Create HintDb frame.

Ltac frame_step :=
  first [ apply preserves_ret; solve [auto]
        | eapply preserves_bind; [solve [eauto with frame]| cbv beta; intros ? ?] ].
Ltac frame := repeat frame_step.

Lemma preserves_read_F1 l : preserves s0 (read_F1 l) (fun _ => True).
Proof.
  unfold read_F1. eapply preserves_bind; [apply preserves_read|].
  intros; apply preserves_lift.
Qed.
Lemma preserves_read_F2 l : preserves s0 (read_F2 l) (fun _ => True).
Proof.
  unfold read_F2. eapply preserves_bind; [apply preserves_read|].
  intros; apply preserves_lift.
Qed.
Lemma preserves_read_I1 l : preserves s0 (read_I1 l) (fun _ => True).
Proof.
  unfold read_I1. eapply preserves_bind; [apply preserves_read|].
  intros; apply preserves_lift.
Qed.
Lemma preserves_read_I2 l : preserves s0 (read_I2 l) (fun _ => True).
Proof.
  unfold read_I2. eapply preserves_bind; [apply preserves_read|].
  intros; apply preserves_lift.
Qed.
Lemma preserves_read_operand l : preserves s0 (read_operand l) (fun _ => True).
Proof.
  unfold read_operand. eapply preserves_bind; [apply preserves_read|].
  intros; apply preserves_lift.
Qed.

Hint Resolve preserves_lift preserves_alloc preserves_read preserves_write
  preserves_read_F1 preserves_read_F2 preserves_read_I1 preserves_read_I2
  preserves_read_operand : frame.

Lemma preserves_np_array X : preserves s0 (np_array X) (fresh s0).
Proof. unfold np_array. frame. auto with frame. Qed.

Lemma preserves_mean0 X : preserves s0 (mean0 X) (fresh s0).
Proof. unfold mean0. frame. auto with frame. Qed.

Lemma preserves_std0 X : preserves s0 (std0 X) (fresh s0).
Proof. unfold std0. frame. auto with frame. Qed.

Lemma preserves_where1 v : preserves s0 (where1 v) (fun _ => True).
Proof. unfold where1. frame. Qed.

Lemma preserves_where2 v : preserves s0 (where2 v) (fun _ => True).
Proof. unfold where2. frame. Qed.

Lemma preserves_setitem v idxs x :
  fresh s0 v -> preserves s0 (Store.setitem v idxs x) (fun _ => True).
Proof. intros Hv. unfold Store.setitem. frame. auto with frame. Qed.

Lemma preserves_setitem_cols v idxs x :
  fresh s0 v -> preserves s0 (Store.setitem_cols v idxs x) (fun _ => True).
Proof. intros Hv. unfold Store.setitem_cols. frame. auto with frame. Qed.

Lemma preserves_setitem_pairs v idxs x :
  fresh s0 v -> preserves s0 (Store.setitem_pairs v idxs x) (fun _ => True).
Proof. intros Hv. unfold Store.setitem_pairs. frame. auto with frame. Qed.

Lemma preserves_binop op A B : preserves s0 (binop op A B) (fresh s0).
Proof. unfold binop. frame. auto with frame. Qed.

Hint Resolve preserves_np_array preserves_mean0 preserves_std0
  preserves_where1 preserves_where2 preserves_setitem preserves_setitem_cols
  preserves_setitem_pairs preserves_binop : frame.

Lemma preserves_zscore X : preserves s0 (Store.zscore X) (fresh s0).
Proof.
  unfold Store.zscore. frame.
  eapply preserves_bind.
  - destruct (0 <? length a2)%nat.
    + eapply preserves_bind; [eauto with frame|]. intros; eauto with frame.
    + apply preserves_ret with (Q := fun _ => True). exact I.
  - intros _ _. frame.
Qed.

Lemma preserves_linalg_norm A axis :
  preserves s0 (linalg_norm A axis) (fresh s0).
Proof. unfold linalg_norm. frame. auto with frame. Qed.

Hint Resolve preserves_zscore preserves_linalg_norm : frame.

Lemma preserves_normalize X axis :
  preserves s0 (Store.normalize X axis) (fresh s0).
Proof. unfold Store.normalize. frame. Qed.

Lemma preserves_matmul_T A B : preserves s0 (matmul_T A B) (fresh s0).
Proof. unfold matmul_T. frame. auto with frame. Qed.

Lemma preserves_shape0 A : preserves s0 (shape0 A) (fun _ => True).
Proof. unfold shape0. frame. Qed.

Lemma preserves_true_divide A c : preserves s0 (true_divide A c) (fresh s0).
Proof. unfold true_divide. frame. auto with frame. Qed.

Hint Resolve preserves_normalize preserves_matmul_T preserves_shape0
  preserves_true_divide : frame.

Lemma preserves_compute_xcorr X Y :
  preserves s0 (Store._compute_xcorr X Y) (fresh s0).
Proof. unfold Store._compute_xcorr. frame. auto with frame. Qed.

Lemma preserves_np_unique g : preserves s0 (np_unique g) (fun _ => True).
Proof. unfold np_unique. frame. Qed.

Lemma preserves_eq_scalar g grp : preserves s0 (eq_scalar g grp) (fun _ => True).
Proof. unfold eq_scalar. frame. Qed.

Lemma preserves_getitem_mask A mask :
  preserves s0 (Store.getitem_mask A mask) (fresh s0).
Proof. unfold Store.getitem_mask. frame. auto with frame. Qed.

Lemma preserves_mapM_read_F2 ls :
  preserves s0 (Store.mapM read_F2 ls) (fun _ => True).
Proof.
  eapply preserves_weaken; [apply preserves_mapM, preserves_read_F2|]. auto.
Qed.

Lemma preserves_mapM_read_I1 ls :
  preserves s0 (Store.mapM read_I1 ls) (fun _ => True).
Proof.
  eapply preserves_weaken; [apply preserves_mapM, preserves_read_I1|]. auto.
Qed.

Hint Resolve preserves_compute_xcorr preserves_np_unique preserves_eq_scalar
  preserves_getitem_mask preserves_mapM_read_F2 preserves_mapM_read_I1 : frame.

Lemma preserves_row_stack blocks :
  preserves s0 (Store.row_stack blocks) (fresh s0).
Proof. unfold Store.row_stack. frame. auto with frame. Qed.

Lemma preserves_row_stack_1d vs :
  preserves s0 (Store.row_stack_1d vs) (fresh s0).
Proof. unfold Store.row_stack_1d. frame. auto with frame. Qed.

Lemma preserves_column_stack cols :
  preserves s0 (Store.column_stack cols) (fresh s0).
Proof. unfold Store.column_stack. frame. auto with frame. Qed.

Lemma preserves_sum0 A : preserves s0 (sum0 A) (fresh s0).
Proof. unfold sum0. frame. auto with frame. Qed.

Hint Resolve preserves_row_stack preserves_row_stack_1d preserves_column_stack
  preserves_sum0 : frame.

Lemma preserves_xcorr X Y grouping :
  preserves s0 (Store.xcorr X Y grouping) (fresh s0).
Proof.
  unfold Store.xcorr. destruct grouping as [g|]; [|auto with frame].
  eapply preserves_bind; [eauto with frame|]. intros groups _.
  eapply preserves_bind.
  - apply preserves_mapM with (Q := fresh s0). intros grp. frame.
    auto with frame.
  - intros blocks _. auto with frame.
Qed.

Lemma preserves_dummy_code grouping :
  preserves s0 (Store.dummy_code grouping) (fresh s0).
Proof.
  unfold Store.dummy_code.
  eapply preserves_bind; [eauto with frame|]. intros groups _.
  eapply preserves_bind.
  - apply preserves_mapM with (Q := fresh s0). intros grp. frame.
    auto with frame.
  - intros cols _. auto with frame.
Qed.

Lemma preserves_reverse_dummy_code Y :
  preserves s0 (Store.reverse_dummy_code Y) (fresh s0).
Proof.
  unfold Store.reverse_dummy_code.
  eapply preserves_bind; [eauto with frame|]. intros y _.
  eapply preserves_bind.
  - apply preserves_mapM with (Q := fresh s0). intros p. auto with frame.
  - intros scaled _. frame. auto with frame.
Qed.

End Frame.

Lemma preserves_unchanged {A} (m : Store.M A) (Q : A -> Prop) s :
  Store.preserves s m Q -> Store.unchanged s (snd (m s)).
Proof. intros Hm. apply (Hm s (extends_refl s)). Qed.

(** C10: whatever store a function of the module is called in, and
    whatever references it is given, every object of that store has the
    same value after the call as before it, whether the call returns or
    raises: the index assignments only reach objects made during the
    call. *)
Theorem no_input_mutation (s : Store.store) :
  (forall X, Store.unchanged s (snd (Store.zscore X s)))
  /\ (forall X axis, Store.unchanged s (snd (Store.normalize X axis s)))
  /\ (forall X Y, Store.unchanged s (snd (Store._compute_xcorr X Y s)))
  /\ (forall X Y grouping,
        Store.unchanged s (snd (Store.xcorr X Y grouping s)))
  /\ (forall grouping, Store.unchanged s (snd (Store.dummy_code grouping s)))
  /\ (forall Y, Store.unchanged s (snd (Store.reverse_dummy_code Y s))).
Proof.
  repeat split; intros.
  - apply preserves_unchanged with (Q := Store.fresh s), preserves_zscore.
  - apply preserves_unchanged with (Q := Store.fresh s), preserves_normalize.
  - apply preserves_unchanged with (Q := Store.fresh s),
      preserves_compute_xcorr.
  - apply preserves_unchanged with (Q := Store.fresh s), preserves_xcorr.
  - apply preserves_unchanged with (Q := Store.fresh s), preserves_dummy_code.
  - apply preserves_unchanged with (Q := Store.fresh s),
      preserves_reverse_dummy_code.
Qed.

(** ** The store: the functions compute what the by-value functions do *)

Section Runs.
Local Open Scope nat_scope.

Lemma run_bind_assoc {A B C} (m : Store.M A) (f : A -> Store.M B) (k : B -> Store.M C) s :
  Store.bind (Store.bind m f) k s = Store.bind m (fun a => Store.bind (f a) k) s.
Proof. unfold Store.bind. destruct (m s) as ([a|e], s'); reflexivity. Qed.

Lemma run_bind_ret {A B} (a : A) (k : A -> Store.M B) s : Store.bind (Store.ret a) k s = k a s.
Proof. reflexivity. Qed.

Lemma run_bind_lift {A B} (r : result A) (k : A -> Store.M B) s :
  Store.bind (Store.lift r) k s
  = match r with Ok a => k a s | Raise e => (Raise e, s) end.
Proof. unfold Store.bind, Store.lift. destruct r; reflexivity. Qed.

Lemma run_bind_alloc {B} c (k : Store.ref -> Store.M B) s new :
  Store.bind (Store.alloc c) k (s ++ new)
  = k (length s + length new)%nat (s ++ (new ++ [c])).
Proof. unfold Store.bind, Store.alloc. now rewrite length_app, app_assoc. Qed.

Lemma run_alloc c s new :
  Store.alloc c (s ++ new) = (Ok (length s + length new), s ++ (new ++ [c])).
Proof. unfold Store.alloc. now rewrite length_app, app_assoc. Qed.

Lemma nth_error_new {T} (s new : list T) n :
  nth_error (s ++ new) (length s + n) = nth_error new n.
Proof. rewrite nth_error_app2 by lia. f_equal. lia. Qed.

Lemma run_bind_read_old {B} X c (k : Store.cell -> Store.M B) s new :
  nth_error s X = Some c -> Store.bind (Store.read X) k (s ++ new) = k c (s ++ new).
Proof.
  intros HX. unfold Store.bind, Store.read.
  rewrite nth_error_app1 by (apply nth_error_Some; congruence).
  now rewrite HX.
Qed.

Lemma run_bind_read_new {B} n (k : Store.cell -> Store.M B) s new :
  Store.bind (Store.read (length s + n)) k (s ++ new)
  = match nth_error new n with
    | Some c => k c (s ++ new)
    | None => (Raise TypeError, s ++ new)
    end.
Proof.
  unfold Store.bind, Store.read. rewrite nth_error_new.
  destruct (nth_error new n); reflexivity.
Qed.

Lemma update_app_new {T} (s new : list T) n x :
  update (s ++ new) (length s + n) x = s ++ update new n x.
Proof. induction s as [|h t IH]; simpl; auto. now rewrite IH. Qed.

Lemma run_bind_write_new {B} n c (k : unit -> Store.M B) s new :
  (n < length new)%nat ->
  Store.bind (Store.write (length s + n) c) k (s ++ new) = k tt (s ++ update new n c).
Proof.
  intros Hn. unfold Store.bind, Store.write. rewrite length_app.
  destruct (Nat.ltb_spec (length s + n) (length s + length new)); [|lia].
  now rewrite update_app_new.
Qed.

Ltac run_step :=
  first [ rewrite run_bind_assoc
        | rewrite run_bind_ret
        | rewrite run_bind_lift
        | rewrite run_bind_alloc
        | rewrite run_alloc
        | rewrite run_bind_read_new
        | rewrite run_bind_write_new by (simpl; lia) ];
  cbn [length app nth_error update Nat.add Store.as_F1 Store.as_F2 Store.as_I1 Store.as_I2 Store.as_operand].

Ltac run_case :=
  match goal with
  | |- Store.agrees (match ?r with Ok _ => _ | Raise _ => _ end) _ _ _ =>
      destruct r; cbn [bind]
  end.

Ltac run_done :=
  unfold Store.agrees, Store.ret;
  first [ eexists; split; [reflexivity | eexists; reflexivity]
        | do 2 eexists; split;
          [reflexivity
          | split; [eexists; reflexivity
                   | rewrite nth_error_new; reflexivity] ] ].

Ltac run_old_any :=
  erewrite run_bind_read_old by eassumption;
  cbn [length app nth_error update Nat.add
       Store.as_F1 Store.as_F2 Store.as_I1 Store.as_I2 Store.as_operand].

Ltac run :=
  cbv zeta; cbn [bind];
  repeat first [run_step | run_case | run_old_any]; try run_done.

Lemma zscore_computes s X x :
  nth_error s X = Some (Store.F2 x) ->
  Store.computes (Store.zscore X) Store.F2 (zscore x) s.
Proof.
  intros HX. unfold Store.computes.
  replace (Store.zscore X s) with (Store.zscore X (s ++ []))
    by now rewrite app_nil_r.
  unfold Store.zscore, zscore.
  unfold Store.np_array, Store.mean0, Store.std0, Store.where1,
    Store.setitem, Store.setitem_cols, Store.binop,
    Store.read_operand, Store.read_F1, Store.read_F2.
  repeat first [run_step | run_old_any].
  destruct (0 <? length (where_eq0 (std_axis0 x))); run.
Qed.

Lemma normalize_computes s X x axis :
  nth_error s X = Some (Store.F2 x) ->
  Store.computes (Store.normalize X axis) Store.F2 (normalize x axis) s.
Proof.
  intros HX. unfold Store.computes.
  replace (Store.normalize X axis s) with (Store.normalize X axis (s ++ []))
    by now rewrite app_nil_r.
  unfold Store.normalize, normalize.
  unfold Store.np_array, Store.linalg_norm, Store.where2,
    Store.setitem_pairs, Store.binop,
    Store.read_operand, Store.read_F1, Store.read_F2.
  run.
Qed.

Lemma grows_refl s : Store.grows s s.
Proof. exists []. now rewrite app_nil_r. Qed.

Lemma grows_trans s1 s2 s3 :
  Store.grows s1 s2 -> Store.grows s2 s3 -> Store.grows s1 s3.
Proof. intros (n1 & ->) (n2 & ->). exists (n1 ++ n2). now rewrite app_assoc. Qed.

Lemma grows_lookup s s' l c :
  Store.grows s s' -> nth_error s l = Some c -> nth_error s' l = Some c.
Proof.
  intros (new & ->) H. rewrite nth_error_app1; auto.
  apply nth_error_Some. congruence.
Qed.

Lemma agrees_grow {V} out (mk : V -> Store.cell) v s s1 :
  Store.grows s s1 -> Store.agrees out mk v s1 -> Store.agrees out mk v s.
Proof.
  intros G. unfold Store.agrees. destruct v as [z|e].
  - intros (r & s' & E & G' & H). exists r, s'. repeat split; auto.
    eapply grows_trans; eauto.
  - intros (s' & E & G'). exists s'. split; auto. eapply grows_trans; eauto.
Qed.

Lemma agrees_bind {V W} (m : Store.M Store.ref) (k : Store.ref -> Store.M Store.ref)
      (v : result V) (f : V -> result W) mk mk' s :
  Store.agrees (m s) mk v s ->
  (forall r s1 z, Store.grows s s1 -> nth_error s1 r = Some (mk z) ->
                  Store.agrees (k r s1) mk' (f z) s1) ->
  Store.agrees (Store.bind m k s) mk' (bind v f) s.
Proof.
  intros Hm Hk. unfold Store.agrees in Hm. destruct v as [z|e]; simpl.
  - destruct Hm as (r & s1 & E & G & H). unfold Store.bind. rewrite E.
    apply agrees_grow with (s1 := s1); auto.
  - destruct Hm as (s1 & E & G). unfold Store.bind. rewrite E.
    exists s1. auto.
Qed.

Ltac run_from_here :=
  match goal with
  | |- Store.agrees (?f ?st) _ _ ?st =>
      replace (f st) with (f (st ++ [])) by now rewrite app_nil_r
  end.

Lemma compute_xcorr_computes s X Y x y :
  nth_error s X = Some (Store.F2 x) -> nth_error s Y = Some (Store.F2 y) ->
  Store.computes (Store._compute_xcorr X Y) Store.F2 (_compute_xcorr x y) s.
Proof.
  intros HX HY. unfold Store.computes, Store._compute_xcorr, _compute_xcorr.
  apply agrees_bind with (mk := Store.F2); [now apply zscore_computes|].
  intros zx s1 z1 G1 Hzx.
  apply agrees_bind with (mk := Store.F2); [now apply normalize_computes|].
  intros Xnz s2 z2 G2 HXnz.
  assert (HY2 : nth_error s2 Y = Some (Store.F2 y)).
  { eapply grows_lookup; [|exact HY]. eapply grows_trans; eauto. }
  apply agrees_bind with (mk := Store.F2); [now apply zscore_computes|].
  intros zy s3 z3 G3 Hzy.
  apply agrees_bind with (mk := Store.F2); [now apply normalize_computes|].
  intros Ynz s4 z4 G4 HYnz.
  assert (HXnz4 : nth_error s4 Xnz = Some (Store.F2 z2)).
  { eapply grows_lookup; [|exact HXnz]. eapply grows_trans; eauto. }
  run_from_here.
  unfold Store.matmul_T, Store.shape0, Store.true_divide, Store.read_F2.
  run.
Qed.

Lemma mapM_agrees {A V} (f : A -> Store.M Store.ref) (g : A -> result V)
      (mk : V -> Store.cell) xs : forall s,
  (forall x s1, In x xs -> Store.grows s s1 ->
                Store.agrees (f x s1) mk (g x) s1) ->
  Store.agrees_list (Store.mapM f xs s) mk (mapM g xs) s.
Proof.
  induction xs as [|x xs IH]; intros s Hf; simpl.
  - exists [], s. repeat split; auto using grows_refl.
  - pose proof (Hf x s (or_introl eq_refl) (grows_refl s)) as Hx.
    unfold Store.agrees in Hx. unfold Store.bind at 1.
    destruct (g x) as [z|e]; simpl.
    + destruct Hx as (r & s1 & E & G1 & Hr). rewrite E.
      assert (Hxs : Store.agrees_list (Store.mapM f xs s1) mk (mapM g xs) s1).
      { apply IH. intros x' s2 Hin G2. apply Hf; [now right|].
        eapply grows_trans; eauto. }
      unfold Store.agrees_list in *. unfold Store.bind.
      destruct (mapM g xs) as [zs|e]; simpl.
      * destruct Hxs as (rs & s2 & E2 & G2 & Hrs). rewrite E2.
        exists (r :: rs), s2. repeat split.
        -- eapply grows_trans; eauto.
        -- constructor; auto. eapply grows_lookup; eauto.
      * destruct Hxs as (s2 & E2 & G2). rewrite E2.
        exists s2. split; auto. eapply grows_trans; eauto.
    + destruct Hx as (s1 & E & G1). rewrite E. exists s1. auto.
Qed.

Lemma agrees_list_bind {V W} (m : Store.M (list Store.ref))
      (k : list Store.ref -> Store.M Store.ref)
      (v : result (list V)) (f : list V -> result W) mk mk' s :
  Store.agrees_list (m s) mk v s ->
  (forall rs s1 zs, Store.grows s s1 ->
                    Forall2 (fun r z => nth_error s1 r = Some (mk z)) rs zs ->
                    Store.agrees (k rs s1) mk' (f zs) s1) ->
  Store.agrees (Store.bind m k s) mk' (bind v f) s.
Proof.
  intros Hm Hk. unfold Store.agrees_list in Hm. destruct v as [zs|e]; simpl.
  - destruct Hm as (rs & s1 & E & G & H). unfold Store.bind. rewrite E.
    apply agrees_grow with (s1 := s1); auto.
  - destruct Hm as (s1 & E & G). unfold Store.bind. rewrite E.
    exists s1. auto.
Qed.

Lemma run_bind_eq {A B} (m : Store.M A) (k : A -> Store.M B) s a s' :
  m s = (Ok a, s') -> Store.bind m k s = k a s'.
Proof. intros E. unfold Store.bind. now rewrite E. Qed.

Lemma mapM_pure {A B} (h : A -> B) xs :
  mapM (fun x => Ok (h x)) xs = Ok (map h xs).
Proof. induction xs as [|x xs IH]; simpl; auto. now rewrite IH. Qed.

Lemma mapM_read_F2 s rs zs :
  Forall2 (fun r z => nth_error s r = Some (Store.F2 z)) rs zs ->
  Store.mapM Store.read_F2 rs s = (Ok zs, s).
Proof.
  induction 1 as [|r z rs zs Hr _ IH]; simpl; auto.
  assert (E : Store.read_F2 r s = (Ok z, s)).
  { unfold Store.read_F2, Store.bind, Store.read. now rewrite Hr. }
  erewrite run_bind_eq by exact E. erewrite run_bind_eq by exact IH.
  reflexivity.
Qed.

Lemma mapM_read_I1 s rs zs :
  Forall2 (fun r z => nth_error s r = Some (Store.I1 z)) rs zs ->
  Store.mapM Store.read_I1 rs s = (Ok zs, s).
Proof.
  induction 1 as [|r z rs zs Hr _ IH]; simpl; auto.
  assert (E : Store.read_I1 r s = (Ok z, s)).
  { unfold Store.read_I1, Store.bind, Store.read. now rewrite Hr. }
  erewrite run_bind_eq by exact E. erewrite run_bind_eq by exact IH.
  reflexivity.
Qed.

Lemma row_stack_computes s rs zs :
  Forall2 (fun r z => nth_error s r = Some (Store.F2 z)) rs zs ->
  Store.agrees (Store.row_stack rs s) Store.F2 (row_stack zs) s.
Proof.
  intros H. unfold Store.row_stack.
  erewrite run_bind_eq by (apply mapM_read_F2; exact H).
  run_from_here. run.
Qed.

Lemma xcorr_computes s X Y x y (G : option (Store.ref * list Z)) :
  nth_error s X = Some (Store.F2 x) -> nth_error s Y = Some (Store.F2 y) ->
  (forall gr g, G = Some (gr, g) -> nth_error s gr = Some (Store.I1 g)) ->
  Store.computes (Store.xcorr X Y (option_map fst G)) Store.F2
                 (xcorr x y (option_map snd G)) s.
Proof.
  intros HX HY HG. destruct G as [(gr, g)|]; simpl.
  2: now apply compute_xcorr_computes.
  specialize (HG gr g eq_refl).
  unfold Store.computes, Store.xcorr, xcorr, Store.np_unique, Store.read_I1.
  run_from_here. repeat first [run_step | run_old_any].
  rewrite app_nil_r.
  eapply agrees_list_bind with (mk := Store.F2).
  - apply mapM_agrees. intros grp s1 _ G1.
    assert (HX1 : nth_error s1 X = Some (Store.F2 x))
      by (eapply grows_lookup; eauto).
    assert (HY1 : nth_error s1 Y = Some (Store.F2 y))
      by (eapply grows_lookup; eauto).
    assert (HG1 : nth_error s1 gr = Some (Store.I1 g))
      by (eapply grows_lookup; eauto).
    unfold Store.eq_scalar, Store.getitem_mask, Store.read_I1, Store.read_F2.
    run_from_here. run.
    eapply agrees_grow; [eexists; reflexivity|].
    apply compute_xcorr_computes; rewrite nth_error_new; reflexivity.
  - intros rs s1 zs G1 Hrs. now apply row_stack_computes.
Qed.

Lemma dummy_code_computes s gr g :
  nth_error s gr = Some (Store.I1 g) ->
  Store.computes (Store.dummy_code gr) Store.I2 (dummy_code g) s.
Proof.
  intros HG.
  unfold Store.computes, Store.dummy_code, dummy_code, Store.np_unique,
    Store.read_I1.
  run_from_here. repeat first [run_step | run_old_any].
  rewrite app_nil_r.
  change (column_stack 0%Z
            (map (fun grp => astype_int (eq_mask g grp)) (unique g)))
    with (bind (Ok (map (fun grp => astype_int (eq_mask g grp)) (unique g)))
               (column_stack 0%Z)).
  rewrite <- mapM_pure.
  eapply agrees_list_bind with (mk := Store.I1).
  - apply mapM_agrees. intros grp s1 _ G1.
    assert (HG1 : nth_error s1 gr = Some (Store.I1 g))
      by (eapply grows_lookup; eauto).
    unfold Store.eq_scalar, Store.read_I1.
    run_from_here. run.
  - intros rs s1 zs G1 Hrs. unfold Store.column_stack.
    erewrite run_bind_eq by (apply mapM_read_I1; exact Hrs).
    run_from_here. run.
Qed.

Lemma reverse_dummy_code_computes s Y y :
  nth_error s Y = Some (Store.I2 y) ->
  Store.computes (Store.reverse_dummy_code Y) Store.I1
                 (reverse_dummy_code y) s.
Proof.
  intros HY.
  set (ps := enumerate1 (rows (transpose 0%Z y))).
  set (h := fun p : Z * list Z => map (fun v => dscale v (fst p)) (snd p)).
  assert (Hv : reverse_dummy_code y
               = bind (mapM (fun p => Ok (h p)) ps)
                      (fun zs => bind (row_stack (map (@atleast_2d Z) zs))
                                      (fun stacked => Ok (sum_axis0 stacked)))).
  { rewrite mapM_pure. cbn [bind]. rewrite map_map. reflexivity. }
  rewrite Hv.
  unfold Store.computes, Store.reverse_dummy_code, Store.read_I2.
  run_from_here. repeat first [run_step | run_old_any].
  rewrite app_nil_r.
  eapply agrees_list_bind with (mk := Store.I1).
  - apply mapM_agrees. intros p s1 _ G1. fold (h p). run_from_here. run.
  - intros rs s1 zs G1 Hrs. unfold Store.row_stack_1d, Store.sum0, Store.read_I2.
    rewrite run_bind_assoc.
    erewrite run_bind_eq by (apply mapM_read_I1; exact Hrs).
    run_from_here. run.
Qed.

End Runs.

(** * Further properties of the functions *)

(** ** normalize over any arithmetic *)

Section RoundedNormalize.
Context {F : Type} `{Arith F}.
Implicit Types (A B X : matrix F) (v : list F).

Lemma rounded_where_eq0_2d_In A i j :
  In (i, j) (Rounded.where_eq0_2d A)
  <-> (i < nrows A)%nat /\ (j < ncols A)%nat /\ feq0 (get fzero A i j) = true.
Proof.
  unfold Rounded.where_eq0_2d. rewrite in_flat_map. split.
  - intros (i' & Hi & Hin). apply in_map_iff in Hin as (j' & Heq & Hj).
    inversion Heq; subst. apply filter_In in Hj as (Hj & Hz).
    apply in_seq in Hi, Hj. intuition lia.
  - intros (Hi & Hj & Hz). exists i. split; [apply in_seq; lia|].
    apply in_map_iff. exists j. split; auto.
    apply filter_In. split; [apply in_seq; lia|]. exact Hz.
Qed.

Lemma rounded_bget_one_row J B i j :
  is_matrix 1 J B -> (j < J)%nat -> Rounded.bget B i j = get fzero B 0 j.
Proof.
  intros (HN & HJ & _) Hj. unfold Rounded.bget. rewrite HN; simpl.
  destruct (Nat.eqb_spec (ncols B) 1); auto.
  assert (j = O) by lia. now subst.
Qed.

Lemma rounded_bget_one_col N B i j :
  is_matrix N 1 B -> (i < N)%nat -> Rounded.bget B i j = get fzero B i 0.
Proof.
  intros (HN & HJ & _) Hi. unfold Rounded.bget. rewrite HJ; simpl.
  destruct (Nat.eqb_spec (nrows B) 1); auto.
  assert (i = O) by lia. now subst.
Qed.

Lemma rounded_norm_keepdims_axis0 N J X :
  is_matrix N J X ->
  exists B, Rounded.norm_keepdims X 0 = Ok B /\ is_matrix 1 J B /\
            forall j, (j < J)%nat -> get fzero B 0 j = fnorm (col fzero j X).
Proof.
  intros (HN & HJ & _). eexists; split; [reflexivity|]. split.
  - repeat split; simpl; auto. constructor; auto.
    now rewrite length_map, length_seq.
  - intros j Hj. unfold get; simpl. rewrite nth_map_seq; auto. lia.
Qed.

Lemma rounded_norm_keepdims_axis1 N J X :
  is_matrix N J X ->
  exists B, Rounded.norm_keepdims X 1 = Ok B /\ is_matrix N 1 B /\
            forall i, (i < N)%nat ->
                      get fzero B i 0 = fnorm (nth i (rows X) []).
Proof.
  intros (HN & HJ & _). eexists; split; [reflexivity|]. split.
  - repeat split; simpl; auto.
    + unfold nrows in *; simpl. now rewrite length_map.
    + apply Forall_forall. intros r Hr.
      apply in_map_iff in Hr as (r0 & <- & _). reflexivity.
  - intros i Hi. unfold get; simpl.
    rewrite nth_map_in with (d' := []) by (unfold nrows in HN; lia).
    reflexivity.
Qed.

Lemma rounded_normalize_axis0 N J X :
  is_matrix N J X -> (1 <= N)%nat \/ J = O ->
  exists C, Rounded.normalize X 0 = Ok (C, false) /\ is_matrix N J C /\
    forall i j, (i < N)%nat -> (j < J)%nat ->
      get fzero C i j
      = if feq0 (fnorm (col fzero j X))
        then (if (i =? 0)%nat then fzero else fdiv (get fzero X i j) fone)
        else fdiv (get fzero X i j) (fnorm (col fzero j X)).
Proof.
  intros HX Hne. pose proof HX as (HN & HJ & _).
  unfold Rounded.normalize.
  destruct (rounded_norm_keepdims_axis0 HX) as (B & EB & HB & GB).
  rewrite EB; simpl. pose proof HB as (HBN & HBJ & _).
  set (zi := Rounded.where_eq0_2d B).
  assert (Hzi : forall i j, In (i, j) zi <->
                 i = O /\ (j < J)%nat /\ feq0 (fnorm (col fzero j X)) = true).
  { intros i j. unfold zi. rewrite rounded_where_eq0_2d_In, HBN, HBJ. split.
    - intros (Hi & Hj & Hz). assert (i = O) by lia. subst.
      rewrite GB in Hz by auto. auto.
    - intros (-> & Hj & Hz). rewrite GB by auto. repeat split; auto. }
  assert (Hzi1 : Forall (fun ij => (fst ij < 1)%nat /\ (snd ij < J)%nat) zi).
  { apply Forall_forall. intros (i, j) Hin. apply Hzi in Hin. simpl. lia. }
  assert (HziN : Forall (fun ij => (fst ij < N)%nat /\ (snd ij < J)%nat) zi).
  { apply Forall_forall. intros (i, j) Hin. apply Hzi in Hin. simpl. lia. }
  destruct (setitem_pairs_spec fone fzero HB Hzi1) as (B' & EB' & HB' & GB').
  rewrite EB'; simpl. pose proof HB' as (HBN' & HBJ' & _).
  assert (Hmem : forall i' j, (j < J)%nat ->
                 existsb (fun p => (i' =? fst p) && (j =? snd p))%nat zi
                 = (i' =? 0)%nat && feq0 (fnorm (col fzero j X))).
  { intros i' j Hj.
    destruct ((i' =? 0)%nat && feq0 (fnorm (col fzero j X))) eqn:E.
    - apply andb_true_iff in E as (E1 & E2). apply Nat.eqb_eq in E1.
      apply existsb_pair_In, Hzi. auto.
    - apply not_true_is_false. rewrite existsb_pair_In, Hzi.
      intros (-> & _ & Hz). rewrite Hz in E. discriminate E. }
  assert (Hdiv : forall i j, (j < J)%nat ->
            Rounded.bget B' i j
            = if feq0 (fnorm (col fzero j X)) then fone
              else fnorm (col fzero j X)).
  { intros i j Hj. rewrite (rounded_bget_one_row i HB' Hj).
    rewrite GB' by (auto; lia). rewrite Hmem, GB by auto. reflexivity. }
  destruct (@rounded_true_divide_spec F _ N J X B' HX)
    as (C & bz & EC & HC & GC & Hbz); auto.
  rewrite EC; simpl.
  rewrite Hbz.
  2:{ intros i j Hi Hj. rewrite Hdiv by auto.
      destruct (feq0 (fnorm (col fzero j X))) eqn:E; [apply feq0_one|exact E]. }
  destruct (setitem_pairs_spec fzero fzero HC HziN) as (D & ED & HD & GD).
  rewrite ED; simpl.
  exists D. split; [reflexivity|]. split; [exact HD|].
  intros i j Hi Hj. rewrite GD by auto.
  rewrite Hmem, GC, Hdiv by auto.
  destruct (feq0 (fnorm (col fzero j X))); [|now rewrite andb_false_r].
  rewrite andb_true_r. reflexivity.
Qed.

Lemma rounded_normalize_axis1 N J X :
  is_matrix N J X -> (1 <= J)%nat \/ N = O ->
  exists C, Rounded.normalize X 1 = Ok (C, false) /\ is_matrix N J C /\
    forall i j, (i < N)%nat -> (j < J)%nat ->
      get fzero C i j
      = if feq0 (fnorm (nth i (rows X) []))
        then (if (j =? 0)%nat then fzero else fdiv (get fzero X i j) fone)
        else fdiv (get fzero X i j) (fnorm (nth i (rows X) [])).
Proof.
  intros HX Hne. pose proof HX as (HN & HJ & _).
  unfold Rounded.normalize.
  destruct (rounded_norm_keepdims_axis1 HX) as (B & EB & HB & GB).
  rewrite EB; simpl. pose proof HB as (HBN & HBJ & _).
  set (zi := Rounded.where_eq0_2d B).
  assert (Hzi : forall i j, In (i, j) zi <->
                 (i < N)%nat /\ j = O
                 /\ feq0 (fnorm (nth i (rows X) [])) = true).
  { intros i j. unfold zi. rewrite rounded_where_eq0_2d_In, HBN, HBJ. split.
    - intros (Hi & Hj & Hz). assert (j = O) by lia. subst.
      rewrite GB in Hz by auto. auto.
    - intros (Hi & -> & Hz). rewrite GB by auto. repeat split; auto. }
  assert (Hzi1 : Forall (fun ij => (fst ij < N)%nat /\ (snd ij < 1)%nat) zi).
  { apply Forall_forall. intros (i, j) Hin. apply Hzi in Hin. simpl. lia. }
  assert (HziN : Forall (fun ij => (fst ij < N)%nat /\ (snd ij < J)%nat) zi).
  { apply Forall_forall. intros (i, j) Hin. apply Hzi in Hin. simpl. lia. }
  destruct (setitem_pairs_spec fone fzero HB Hzi1) as (B' & EB' & HB' & GB').
  rewrite EB'; simpl. pose proof HB' as (HBN' & HBJ' & _).
  assert (Hmem : forall i j', (i < N)%nat ->
                 existsb (fun p => (i =? fst p) && (j' =? snd p))%nat zi
                 = (j' =? 0)%nat && feq0 (fnorm (nth i (rows X) []))).
  { intros i j' Hi.
    destruct ((j' =? 0)%nat && feq0 (fnorm (nth i (rows X) []))) eqn:E.
    - apply andb_true_iff in E as (E1 & E2). apply Nat.eqb_eq in E1.
      apply existsb_pair_In, Hzi. auto.
    - apply not_true_is_false. rewrite existsb_pair_In, Hzi.
      intros (_ & -> & Hz). rewrite Hz in E. discriminate E. }
  assert (Hdiv : forall i j, (i < N)%nat ->
            Rounded.bget B' i j
            = if feq0 (fnorm (nth i (rows X) [])) then fone
              else fnorm (nth i (rows X) [])).
  { intros i j Hi. rewrite (rounded_bget_one_col j HB' Hi).
    rewrite GB' by (auto; lia). rewrite Hmem, GB by auto. reflexivity. }
  destruct (@rounded_true_divide_spec F _ N J X B' HX)
    as (C & bz & EC & HC & GC & Hbz); auto.
  rewrite EC; simpl.
  rewrite Hbz.
  2:{ intros i j Hi Hj. rewrite Hdiv by auto.
      destruct (feq0 (fnorm (nth i (rows X) []))) eqn:E;
        [apply feq0_one|exact E]. }
  destruct (setitem_pairs_spec fzero fzero HC HziN) as (D & ED & HD & GD).
  rewrite ED; simpl.
  exists D. split; [reflexivity|]. split; [exact HD|].
  intros i j Hi Hj. rewrite GD by auto.
  rewrite Hmem, GC, Hdiv by auto.
  destruct (feq0 (fnorm (nth i (rows X) []))); [|now rewrite andb_false_r].
  rewrite andb_true_r. reflexivity.
Qed.

End RoundedNormalize.

(** At the arithmetic of the real numbers the function returns what the
    by-value one returns: a slice of norm zero has no entry other than
    zero, and to divide such an entry by 1 is to reset it. *)
Lemma normalize_real N J (X : matrix R) :
  is_matrix N J X ->
  ((1 <= N)%nat ->
   Rounded.normalize (H := Arith_real) X 0
   = (C <- normalize X 0 ;; Ok (C, false)))
  /\ ((1 <= J)%nat ->
      Rounded.normalize (H := Arith_real) X 1
      = (C <- normalize X 1 ;; Ok (C, false))).
Proof.
  intros HX. split; intros Hne.
  - destruct (rounded_normalize_axis0 (H := Arith_real) HX (or_introl Hne))
      as (C & E & HC & G).
    destruct (normalize_axis0_entries HX (or_introl Hne)) as (C' & E' & HC' & G').
    rewrite E, E'. simpl. do 2 f_equal.
    apply matrix_ext with (N := N) (J := J) (d := 0); auto.
    intros i j Hi Hj. rewrite G' by auto.
    transitivity (@get R fzero C i j); [reflexivity|]. rewrite G by auto.
    cbn [feq0 fnorm fzero fone fdiv Arith_real].
    destruct (Reqb (norm (col 0 j X)) 0) eqn:En; auto.
    destruct (i =? 0)%nat; auto.
    apply Reqb_true in En. apply norm_zero_entries with (k := i) in En.
    rewrite nth_col in En by (destruct HX as (-> & _); lia).
    rewrite En. unfold Rdiv. ring.
  - destruct (rounded_normalize_axis1 (H := Arith_real) HX (or_introl Hne))
      as (C & E & HC & G).
    destruct (normalize_axis1_entries HX (or_introl Hne)) as (C' & E' & HC' & G').
    rewrite E, E'. simpl. do 2 f_equal.
    apply matrix_ext with (N := N) (J := J) (d := 0); auto.
    intros i j Hi Hj. rewrite G' by auto.
    transitivity (@get R fzero C i j); [reflexivity|]. rewrite G by auto.
    cbn [feq0 fnorm fzero fone fdiv Arith_real].
    destruct (Reqb (norm (nth i (rows X) [])) 0) eqn:En; auto.
    destruct (j =? 0)%nat; auto.
    apply Reqb_true in En. apply norm_zero_entries with (k := j) in En.
    unfold get at 1. rewrite En. unfold Rdiv. ring.
Qed.

(** X1.  Whatever the arithmetic of the entries, on a matrix with at
    least one entry along the normalised axis [normalize] has no divisor
    that compares equal to zero in [normed / normal_base] and returns a
    matrix of the same shape.  An entry of a slice whose norm, as the program
    computes it, does not compare equal to zero is divided by that norm.
    In a slice whose norm compares equal to zero the entry at index 0 along
    the normalised axis is the literal 0, and every other entry is the
    entry of the argument divided by 1: the indices at which the result is
    reset are those of the array of norms, which has a single entry along
    that axis. *)
Theorem normalize_entrywise (F : Type) (Ar : Arith F) N J (X : matrix F) :
  is_matrix N J X ->
  ((1 <= N)%nat ->
   exists C, Rounded.normalize X 0 = Ok (C, false) /\ is_matrix N J C /\
     forall i j, (i < N)%nat -> (j < J)%nat ->
       get fzero C i j
       = if feq0 (fnorm (col fzero j X))
         then (if (i =? 0)%nat then fzero else fdiv (get fzero X i j) fone)
         else fdiv (get fzero X i j) (fnorm (col fzero j X)))
  /\ ((1 <= J)%nat ->
      exists C, Rounded.normalize X 1 = Ok (C, false) /\ is_matrix N J C /\
        forall i j, (i < N)%nat -> (j < J)%nat ->
          get fzero C i j
          = if feq0 (fnorm (nth i (rows X) []))
            then (if (j =? 0)%nat then fzero else fdiv (get fzero X i j) fone)
            else fdiv (get fzero X i j) (fnorm (nth i (rows X) []))).
Proof.
  intros HX. split; intros Hne.
  - apply rounded_normalize_axis0; auto.
  - apply rounded_normalize_axis1; auto.
Qed.

Lemma normalize_entrywise_witness :
  is_matrix 2 1 Sample.U21 /\ (1 <= 2)%nat
  /\ exists C, Rounded.normalize Sample.U21 0 = Ok (C, false)
               /\ is_matrix 2 1 C
               /\ get fzero C 0 0 = fzero
               /\ get fzero C 1 0 = fdiv (get fzero Sample.U21 1 0) fone.
Proof.
  assert (HX : is_matrix 2 1 Sample.U21) by (repeat split; repeat constructor).
  assert (H2 : (1 <= 2)%nat) by lia.
  split; [exact HX|]. split; [exact H2|].
  destruct (proj1 (@normalize_entrywise _ Arith_binary64 2 1 Sample.U21 HX) H2)
    as (C & E & HC & G).
  exists C. split; [exact E|]. split; [exact HC|].
  split; rewrite G by lia; vm_compute; reflexivity.
Defined.

(** X2.  [normalize] raises exactly on a matrix that is empty along the
    normalised axis and still has a slice to normalise (axis 0: no rows
    and at least one column; axis 1: no columns and at least one row),
    and then the exception is IndexError; on every other matrix it
    returns a matrix of the same shape. *)
Theorem normalize_raises_exactly N J (X : matrix R) :
  is_matrix N J X ->
  (if (N =? 0)%nat && (1 <=? J)%nat
   then normalize X 0 = Raise IndexError
   else exists C, normalize X 0 = Ok C /\ is_matrix N J C)
  /\ (if (J =? 0)%nat && (1 <=? N)%nat
      then normalize X 1 = Raise IndexError
      else exists C, normalize X 1 = Ok C /\ is_matrix N J C).
Proof.
  intros HX. split.
  - destruct (Nat.eqb_spec N 0) as [->|HN], (Nat.leb_spec 1 J) as [HJ|HJ];
      cbn [andb].
    + now apply normalize_no_rows_raises with (J := J).
    + destruct (@normalize_axis0_entries 0 J X HX) as (C & E & HC & _);
        [right; lia|]. eauto.
    + destruct (@normalize_axis0_entries N J X HX) as (C & E & HC & _);
        [left; lia|]. eauto.
    + destruct (@normalize_axis0_entries N J X HX) as (C & E & HC & _);
        [left; lia|]. eauto.
  - destruct (Nat.eqb_spec J 0) as [->|HJ], (Nat.leb_spec 1 N) as [HN|HN];
      cbn [andb].
    + now apply normalize_no_cols_raises with (N := N).
    + destruct (@normalize_axis1_entries N 0 X HX) as (C & E & HC & _);
        [right; lia|]. eauto.
    + destruct (@normalize_axis1_entries N J X HX) as (C & E & HC & _);
        [left; lia|]. eauto.
    + destruct (@normalize_axis1_entries N J X HX) as (C & E & HC & _);
        [left; lia|]. eauto.
Qed.

Lemma normalize_raises_exactly_witness :
  is_matrix 0 1 Sample.X01
  /\ normalize Sample.X01 0 = Raise IndexError
  /\ exists C, normalize Sample.X01 1 = Ok C /\ is_matrix 0 1 C.
Proof.
  assert (HX : is_matrix 0 1 Sample.X01) by (repeat split; repeat constructor).
  split; [exact HX|].
  exact (@normalize_raises_exactly 0 1 Sample.X01 HX).
Defined.

(** ** zscore of a single observation *)




(** ** The entries of _compute_xcorr *)

Lemma compute_xcorr_entries N J K (X Y : matrix R) :
  (1 <= N)%nat -> is_matrix N J X -> is_matrix N K Y ->
  exists zx zy Xnz Ynz C,
    zscore X = Ok zx /\ zscore Y = Ok zy /\
    normalize zx 0 = Ok Xnz /\ normalize zy 0 = Ok Ynz /\
    is_matrix N J zx /\ is_matrix N K zy /\
    is_matrix N J Xnz /\ is_matrix N K Ynz /\
    _compute_xcorr X Y = Ok C /\ is_matrix K J C /\
    forall k j, (k < K)%nat -> (j < J)%nat ->
      get 0 C k j
      = dot (col 0 k Ynz) (col 0 j Xnz) / IZR (Z.of_nat N - 1).
Proof.
  intros HN1 HX HY.
  destruct (compute_xcorr_steps HN1 HX HY)
    as (zx & zy & Xnz & Ynz & P & Ezx & Ezy & EX & EY & HXnz & HYnz & EP & HP & E).
  destruct (zscore_entries HX) as (zx' & Ezx' & Hzx & _).
  rewrite Ezx in Ezx'. inversion Ezx'; subst zx'.
  destruct (zscore_entries HY) as (zy' & Ezy' & Hzy & _).
  rewrite Ezy in Ezy'. inversion Ezy'; subst zy'.
  exists zx, zy, Xnz, Ynz, (div_scalar P (IZR (Z.of_nat N - 1))).
  repeat split; try assumption; try apply HXnz; try apply HYnz;
    try apply Hzx; try apply Hzy; try apply (div_scalar_spec _ HP).
  intros k j Hk Hj.
  destruct (div_scalar_spec (IZR (Z.of_nat N - 1)) HP) as (_ & G).
  rewrite G by auto. f_equal.
  destruct (matmul_spec (transpose_shape 0 HYnz) HXnz) as (P' & EP' & _ & GP).
  rewrite EP in EP'. inversion EP'; subst P'.
  rewrite GP by auto. now rewrite (transpose_row 0 HYnz Hk).
Qed.

Lemma dot_comm u v : dot u v = dot v u.
Proof.
  unfold dot. revert v; induction u as [|x u IH]; intros [|y v]; simpl; auto.
  rewrite IH. ring.
Qed.

Lemma get_transpose {T} N J (A : matrix T) d j k :
  is_matrix N J A -> (j < J)%nat -> (k < N)%nat ->
  get d (transpose d A) j k = get d A k j.
Proof.
  intros HA Hj Hk. unfold get at 1. rewrite (transpose_row d HA Hj).
  apply nth_col. destruct HA as (-> & _). auto.
Qed.

(** X7.  Swapping the arguments transposes the result:
    [_compute_xcorr(Y, X)] is [_compute_xcorr(X, Y).T]. *)
Theorem compute_xcorr_swap N J K (X Y : matrix R) :
  (2 <= N)%nat -> is_matrix N J X -> is_matrix N K Y ->
  exists C, _compute_xcorr X Y = Ok C
            /\ _compute_xcorr Y X = Ok (transpose 0 C).
Proof.
  intros HN2 HX HY. assert (HN1 : (1 <= N)%nat) by lia.
  destruct (compute_xcorr_entries HN1 HX HY)
    as (zx & zy & Xnz & Ynz & C & Ezx & Ezy & EX & EY & _ & _ & _ & _
        & EC & HC & GC).
  destruct (compute_xcorr_entries HN1 HY HX)
    as (zy' & zx' & Ynz' & Xnz' & D & Ezy' & Ezx' & EY' & EX' & _ & _ & _ & _
        & ED & HD & GD).
  rewrite Ezx in Ezx'. inversion Ezx'; subst zx'.
  rewrite Ezy in Ezy'. inversion Ezy'; subst zy'.
  rewrite EX in EX'. inversion EX'; subst Xnz'.
  rewrite EY in EY'. inversion EY'; subst Ynz'.
  exists C. split; [exact EC|]. rewrite ED. f_equal.
  apply matrix_ext with (N := J) (J := K) (d := 0); auto.
  { now apply transpose_shape. }
  intros j k Hj Hk.
  rewrite (get_transpose 0 HC Hj Hk), GD, GC by auto.
  now rewrite dot_comm.
Qed.

Lemma compute_xcorr_swap_witness :
  (2 <= 2)%nat /\ is_matrix 2 2 Sample.X22 /\ is_matrix 2 1 Sample.Y21
  /\ exists C, _compute_xcorr Sample.X22 Sample.Y21 = Ok C
               /\ _compute_xcorr Sample.Y21 Sample.X22 = Ok (transpose 0 C).
Proof.
  assert (H2 : (2 <= 2)%nat) by lia.
  assert (HX : is_matrix 2 2 Sample.X22) by (repeat split; repeat constructor).
  assert (HY : is_matrix 2 1 Sample.Y21) by (repeat split; repeat constructor).
  split; [exact H2|]. split; [exact HX|]. split; [exact HY|].
  exact (@compute_xcorr_swap 2 2 1 Sample.X22 Sample.Y21 H2 HX HY).
Defined.

(** ** xcorr: one group, and the exception for each kind of bad input *)

Lemma unique_constant c g :
  g <> [] -> (forall l, In l g -> l = c) -> unique g = [c].
Proof.
  induction g as [|x g IH]; intros Hne Hall; [congruence|].
  assert (x = c) by (apply Hall; now left). subst x.
  destruct g as [|y g].
  - reflexivity.
  - change (unique (c :: y :: g)) with (insert_unique c (unique (y :: g))).
    rewrite IH; [|discriminate|intros l Hl; apply Hall; now right].
    simpl. now rewrite Z.ltb_irrefl, Z.eqb_refl.
Qed.

Lemma getitem_mask_all {T} (A : matrix T) g c :
  (forall l, In l g -> l = c) -> length g = nrows A ->
  getitem_mask A (eq_mask g c) = Ok A.
Proof.
  intros Hall Hlen. unfold getitem_mask, eq_mask.
  rewrite length_map, Hlen, Nat.eqb_refl. destruct A as [n rs].
  simpl. f_equal. f_equal. unfold nrows in Hlen; simpl in Hlen.
  revert rs Hlen. induction g as [|x g IH]; intros [|r rs] Hlen;
    simpl in *; try lia; auto.
  rewrite (Hall x (or_introl eq_refl)), Z.eqb_refl. simpl. f_equal.
  apply IH; [intros l Hl; apply Hall; now right|lia].
Qed.

Lemma row_stack_single {T} (b : matrix T) : row_stack [b] = Ok b.
Proof. destruct b as [n rs]. simpl. now rewrite app_nil_r. Qed.

(** X10.  When every row carries the same label, [xcorr] with the grouping
    is [xcorr] without it: [xcorr(X, Y, [c, ..., c])] is
    [_compute_xcorr(X, Y)], result or exception. *)
Theorem xcorr_single_group (X Y : matrix R) g c :
  g <> [] -> (forall l, In l g -> l = c) ->
  length g = nrows X -> length g = nrows Y ->
  xcorr X Y (Some g) = _compute_xcorr X Y.
Proof.
  intros Hne Hall HX HY. unfold xcorr.
  rewrite (unique_constant Hne Hall). simpl.
  rewrite (@getitem_mask_all _ X g c Hall HX), (@getitem_mask_all _ Y g c Hall HY).
  simpl.
  destruct (_compute_xcorr X Y) as [B|e]; simpl; auto.
  apply row_stack_single.
Qed.

Lemma xcorr_single_group_witness :
  Sample.g1 <> [] /\ (forall l, In l Sample.g1 -> l = 5%Z)
  /\ xcorr Sample.X11 Sample.Y11 (Some Sample.g1)
     = _compute_xcorr Sample.X11 Sample.Y11.
Proof.
  assert (Hne : Sample.g1 <> []) by discriminate.
  assert (Hall : forall l, In l Sample.g1 -> l = 5%Z).
  { intros l [<-|[]]. reflexivity. }
  split; [exact Hne|]. split; [exact Hall|].
  exact (@xcorr_single_group Sample.X11 Sample.Y11 Sample.g1 5%Z
           Hne Hall eq_refl eq_refl).
Defined.

(** X11.  What [xcorr] with a grouping does for each kind of input: an
    empty grouping raises ValueError (nothing to stack), whatever [X] and
    [Y] are; a grouping whose length is not the number of rows of [X], or
    of [Y], raises IndexError (the boolean mask does not fit); any other
    grouping gives a result with one block of K rows per distinct
    label. *)
Theorem xcorr_grouping_outcome Nx Ny J K (X Y : matrix R) g :
  is_matrix Nx J X -> is_matrix Ny K Y ->
  (g = [] -> xcorr X Y (Some g) = Raise ValueError)
  /\ (g <> [] -> length g <> Nx \/ length g <> Ny ->
      xcorr X Y (Some g) = Raise IndexError)
  /\ (g <> [] -> length g = Nx -> length g = Ny ->
      exists S, xcorr X Y (Some g) = Ok S
                /\ is_matrix (K * length (unique g)) J S).
Proof.
  intros HX HY. split; [|split].
  - intros ->. reflexivity.
  - intros Hne Hmis. unfold xcorr.
    destruct (unique g) as [|grp rest] eqn:Eu.
    { apply (proj1 (unique_nil g)) in Eu. congruence. }
    rewrite mapM_first_raises with (e := IndexError); [reflexivity|].
    destruct (Nat.eq_dec (length g) Nx) as [Hgx|Hgx].
    + destruct (@getitem_mask_group_rows _ Nx J X g grp HX Hgx) as (EX & _).
      rewrite EX; simpl. rewrite getitem_mask_mismatch; auto.
      unfold eq_mask. rewrite length_map. destruct HY as (-> & _). lia.
    + rewrite getitem_mask_mismatch; auto.
      unfold eq_mask. rewrite length_map. destruct HX as (-> & _). auto.
  - intros Hne Hgx Hgy. subst Nx.
    assert (HN1 : (1 <= length g)%nat) by (destruct g; simpl; [congruence|lia]).
    rewrite <- Hgy in HY.
    destruct (@xcorr_grouped (length g) J K X Y g HX HY eq_refl HN1)
      as (blocks & S & _ & ES & _ & HS).
    now exists S.
Qed.

Lemma xcorr_grouping_outcome_witness :
  is_matrix 4 1 Sample.X41 /\ is_matrix 2 1 Sample.Y21
  /\ xcorr Sample.X41 Sample.Y21 (Some []) = Raise ValueError
  /\ xcorr Sample.X41 Sample.Y21 (Some Sample.g4) = Raise IndexError.
Proof.
  assert (HX : is_matrix 4 1 Sample.X41) by (repeat split; repeat constructor).
  assert (HY : is_matrix 2 1 Sample.Y21) by (repeat split; repeat constructor).
  split; [exact HX|]. split; [exact HY|]. split.
  - apply (proj1 (@xcorr_grouping_outcome 4 2 1 1 Sample.X41 Sample.Y21 []
                    HX HY)). reflexivity.
  - apply (proj1 (proj2 (@xcorr_grouping_outcome 4 2 1 1 Sample.X41 Sample.Y21
                           Sample.g4 HX HY))).
    + discriminate.
    + right. simpl. lia.
Defined.

(** ** dummy_code: column sums, and labels that only matter by their order *)

Lemma Zsum_indicator_count g u :
  Zsum (map (fun x => if (x =? u)%Z then 1%Z else 0%Z) g)
  = Z.of_nat (group_size g u).
Proof.
  unfold group_size. induction g as [|x g IH]; simpl; auto.
  rewrite IH. destruct (Z.eqb_spec x u), (Z.eq_dec x u); try congruence; lia.
Qed.

(** X12.  Column k of [dummy_code(g)] sums to the number of rows that carry
    the k-th smallest label, which is at least 1: no column is empty. *)
Theorem dummy_code_column_sums g :
  g <> [] ->
  exists D, dummy_code g = Ok D
    /\ forall k, (k < length (unique g))%nat ->
         Zsum (col 0%Z k D)
         = Z.of_nat (group_size g (nth k (unique g) 0%Z))
         /\ (1 <= group_size g (nth k (unique g) 0%Z))%nat.
Proof.
  intros Hne. destruct (dummy_code_entries Hne) as (D & E & HD & Hrow).
  exists D. split; [exact E|]. intros k Hk.
  assert (Hin : In (nth k (unique g) 0%Z) g)
    by (apply (proj1 (unique_In g _)); now apply nth_In).
  split; [|now apply group_size_pos].
  rewrite <- Zsum_indicator_count. f_equal.
  apply nth_ext with (d := 0%Z) (d' := 0%Z).
  - rewrite col_length, length_map. now destruct HD as (-> & _).
  - intros i Hi. rewrite col_length in Hi.
    assert (Hi' : (i < length g)%nat) by (destruct HD as (<- & _); auto).
    rewrite nth_col by auto. unfold get. rewrite Hrow by auto.
    rewrite nth_map_in with (d' := 0%Z) by auto.
    now rewrite nth_map_in with (d' := 0%Z) by auto.
Qed.

Lemma dummy_code_column_sums_witness :
  Sample.g5 <> []
  /\ exists D, dummy_code Sample.g5 = Ok D
       /\ forall k, (k < length (unique Sample.g5))%nat ->
            Zsum (col 0%Z k D)
            = Z.of_nat (group_size Sample.g5 (nth k (unique Sample.g5) 0%Z))
            /\ (1 <= group_size Sample.g5 (nth k (unique Sample.g5) 0%Z))%nat.
Proof.
  assert (Hne : Sample.g5 <> []) by discriminate.
  split; [exact Hne|]. exact (@dummy_code_column_sums Sample.g5 Hne).
Defined.

Lemma sorted_same_elements l1 : forall l2,
  StronglySorted Z.lt l1 -> StronglySorted Z.lt l2 ->
  (forall x, In x l1 <-> In x l2) -> l1 = l2.
Proof.
  induction l1 as [|a l1 IH]; intros l2 H1 H2 Hel.
  - destruct l2 as [|b l2]; auto.
    exfalso. apply (proj2 (Hel b)). now left.
  - destruct l2 as [|b l2].
    { exfalso. apply (proj1 (Hel a)). now left. }
    inversion H1 as [|? ? Hs1 Ha]; subst. inversion H2 as [|? ? Hs2 Hb]; subst.
    rewrite Forall_forall in Ha, Hb.
    assert (a = b).
    { destruct (proj1 (Hel a) (or_introl eq_refl)) as [|Hin1]; auto.
      destruct (proj2 (Hel b) (or_introl eq_refl)) as [|Hin2]; auto.
      specialize (Ha _ Hin2). specialize (Hb _ Hin1). lia. }
    subst b. f_equal. apply IH; auto.
    intros x. split; intros Hx.
    + destruct (proj1 (Hel x) (or_intror Hx)) as [<-|]; auto.
      specialize (Ha _ Hx). lia.
    + destruct (proj2 (Hel x) (or_intror Hx)) as [<-|]; auto.
      specialize (Hb _ Hx). lia.
Qed.

Lemma sorted_map_monotone (f : Z -> Z) l :
  StronglySorted Z.lt l ->
  (forall x y, In x l -> In y l -> (x < y)%Z -> (f x < f y)%Z) ->
  StronglySorted Z.lt (map f l).
Proof.
  induction 1 as [|a l Hs IH Ha]; intros Hf; simpl; constructor.
  - apply IH. intros x y Hx Hy. apply Hf; now right.
  - rewrite Forall_forall in *. intros y Hy.
    apply in_map_iff in Hy as (x & <- & Hx).
    apply Hf; [now left|now right|auto].
Qed.

Lemma unique_map_monotone (f : Z -> Z) g :
  (forall x y, In x g -> In y g -> (x < y)%Z -> (f x < f y)%Z) ->
  unique (map f g) = map f (unique g).
Proof.
  intros Hf. apply sorted_same_elements.
  - apply unique_sorted.
  - apply sorted_map_monotone; [apply unique_sorted|].
    intros x y Hx Hy. apply Hf; now apply (proj1 (unique_In g _)).
  - intros y. rewrite unique_In, !in_map_iff. split.
    + intros (x & <- & Hx). exists x. split; auto.
      now apply (proj2 (unique_In g x)).
    + intros (x & <- & Hx). exists x. split; auto.
      now apply (proj1 (unique_In g x)).
Qed.

Lemma monotone_injective (f : Z -> Z) g x y :
  (forall x y, In x g -> In y g -> (x < y)%Z -> (f x < f y)%Z) ->
  In x g -> In y g -> (f x =? f y)%Z = (x =? y)%Z.
Proof.
  intros Hf Hx Hy. destruct (Z.eqb_spec x y) as [->|Hne].
  - apply Z.eqb_refl.
  - apply Z.eqb_neq. destruct (Z.lt_total x y) as [Hlt|[Heq|Hgt]].
    + specialize (Hf x y Hx Hy Hlt). lia.
    + congruence.
    + specialize (Hf y x Hy Hx Hgt). lia.
Qed.

Lemma eq_mask_map_monotone (f : Z -> Z) g u :
  (forall x y, In x g -> In y g -> (x < y)%Z -> (f x < f y)%Z) ->
  In u g -> eq_mask (map f g) (f u) = eq_mask g u.
Proof.
  intros Hf Hu. unfold eq_mask. rewrite map_map.
  apply map_ext_in. intros l Hl. now apply monotone_injective with (g := g).
Qed.

Lemma dummy_code_relabel (f : Z -> Z) g :
  (forall x y, In x g -> In y g -> (x < y)%Z -> (f x < f y)%Z) ->
  dummy_code (map f g) = dummy_code g.
Proof.
  intros Hf. unfold dummy_code.
  rewrite (unique_map_monotone f g Hf), map_map. f_equal.
  apply map_ext_in. intros u Hu. apply (proj1 (unique_In g u)) in Hu.
  now rewrite eq_mask_map_monotone.
Qed.

(** X13.  Only the order of the labels matters to [dummy_code]: replacing
    every label [l] by [f l], for an [f] that is increasing on the labels
    in use, gives the same indicator matrix. *)
Theorem dummy_code_order_only (f : Z -> Z) g :
  (forall x y, In x g -> In y g -> (x < y)%Z -> (f x < f y)%Z) ->
  dummy_code (map f g) = dummy_code g.
Proof. exact (dummy_code_relabel f g). Qed.

Lemma dummy_code_order_only_witness :
  (forall x y, In x Sample.g5 -> In y Sample.g5 -> (x < y)%Z ->
               (10 * x + 3 < 10 * y + 3)%Z)
  /\ dummy_code (map (fun l => 10 * l + 3)%Z Sample.g5) = dummy_code Sample.g5.
Proof.
  assert (Hf : forall x y, In x Sample.g5 -> In y Sample.g5 -> (x < y)%Z ->
                           (10 * x + 3 < 10 * y + 3)%Z)
    by (intros; lia).
  split; [exact Hf|].
  exact (@dummy_code_order_only (fun l => 10 * l + 3)%Z Sample.g5 Hf).
Defined.

(** X14.  The same for [xcorr]: the blocks and their order depend on the
    order of the labels only. *)
Theorem xcorr_order_only (f : Z -> Z) (X Y : matrix R) g :
  (forall x y, In x g -> In y g -> (x < y)%Z -> (f x < f y)%Z) ->
  xcorr X Y (Some (map f g)) = xcorr X Y (Some g).
Proof.
  intros Hf. unfold xcorr. rewrite (unique_map_monotone f g Hf).
  f_equal. clear - Hf.
  assert (Hsub : forall u, In u (unique g) -> In u g)
    by (intros u; apply (proj1 (unique_In g u))).
  induction (unique g) as [|u us IH]; simpl; auto.
  rewrite eq_mask_map_monotone by (auto; apply Hsub; now left).
  rewrite IH by (intros; apply Hsub; now right). reflexivity.
Qed.

Lemma xcorr_order_only_witness :
  (forall x y, In x Sample.g4 -> In y Sample.g4 -> (x < y)%Z ->
               (x - 100 < y - 100)%Z)
  /\ xcorr Sample.X41 Sample.Y41 (Some (map (fun l => l - 100)%Z Sample.g4))
     = xcorr Sample.X41 Sample.Y41 (Some Sample.g4).
Proof.
  assert (Hf : forall x y, In x Sample.g4 -> In y Sample.g4 -> (x < y)%Z ->
                           (x - 100 < y - 100)%Z)
    by (intros; lia).
  split; [exact Hf|].
  exact (@xcorr_order_only (fun l => l - 100)%Z Sample.X41 Sample.Y41
           Sample.g4 Hf).
Defined.

(** ** Decoding and encoding again *)

Lemma rank_monotone l x y :
  StronglySorted Z.lt l -> In x l -> In y l -> (x < y)%Z ->
  (rank l x < rank l y)%Z.
Proof.
  induction 1 as [|a t Hs IH Ha]; intros Hx Hy Hlt; [destruct Hx|].
  rewrite Forall_forall in Ha. simpl rank.
  assert (Hyt : In y t).
  { destruct Hy as [<-|]; auto. destruct Hx as [<-|Hx]; [lia|].
    specialize (Ha _ Hx). lia. }
  assert (Hya : (y =? a)%Z = false)
    by (apply Z.eqb_neq; specialize (Ha _ Hyt); lia).
  rewrite Hya.
  destruct (rank_In _ _ Hyt) as ((Hry & _) & _).
  replace (rank t y =? 0)%Z with false by (symmetry; apply Z.eqb_neq; lia).
  destruct (Z.eqb_spec x a) as [->|Hxa]; [lia|].
  destruct Hx as [Hx|Hx]; [congruence|].
  destruct (rank_In _ _ Hx) as ((Hrx & _) & _).
  replace (rank t x =? 0)%Z with false by (symmetry; apply Z.eqb_neq; lia).
  specialize (IH Hx Hyt Hlt). lia.
Qed.

(** X15.  Encoding the decoded labels gives the indicator matrix back:
    with [D = dummy_code(g)], [dummy_code(reverse_dummy_code(D))] is
    [D]. *)
Theorem dummy_code_of_decoded g :
  g <> [] ->
  exists D v, dummy_code g = Ok D /\ reverse_dummy_code D = Ok v
              /\ dummy_code v = Ok D.
Proof.
  intros Hne. destruct (roundtrip_entries Hne) as (D & E & Ev).
  exists D, (map (rank (unique g)) g).
  assert (Hv : map (fun i => rank (unique g) (nth i g 0%Z)) (seq 0 (length g))
               = map (rank (unique g)) g).
  { rewrite <- (map_map (fun i => nth i g 0%Z) (rank (unique g))).
    now rewrite map_seq_nth. }
  rewrite Hv in Ev. split; [exact E|]. split; [exact Ev|].
  rewrite <- E. apply dummy_code_relabel.
  intros x y Hx Hy. apply rank_monotone.
  - apply unique_sorted.
  - now apply (proj2 (unique_In g x)).
  - now apply (proj2 (unique_In g y)).
Qed.

Lemma dummy_code_of_decoded_witness :
  Sample.g5 <> []
  /\ exists D v, dummy_code Sample.g5 = Ok D /\ reverse_dummy_code D = Ok v
                 /\ dummy_code v = Ok D.
Proof.
  assert (Hne : Sample.g5 <> []) by discriminate.
  split; [exact Hne|]. exact (@dummy_code_of_decoded Sample.g5 Hne).
Defined.

Lemma Zsum_all_zero (f : nat -> Z) l :
  (forall n, In n l -> f n = 0%Z) -> Zsum (map f l) = 0%Z.
Proof.
  induction l as [|x l IH]; intros H; simpl; auto.
  rewrite IH by (intros; apply H; now right).
  rewrite (H x (or_introl eq_refl)). reflexivity.
Qed.

Lemma weighted_unit G : forall s p,
  Zsum (map (fun n => ((if (n - s =? p)%nat then 1 else 0) * Z.of_nat n)%Z)
            (seq s G))
  = if (p <? G)%nat then Z.of_nat (s + p) else 0%Z.
Proof.
  induction G as [|G IH]; intros s p; [reflexivity|].
  cbn [seq map Zsum fold_right]. fold Zsum. rewrite Nat.sub_diag.
  destruct p as [|p].
  - cbn [Nat.eqb]. rewrite Zsum_all_zero.
    + change (0 <? S G)%nat with true. cbv iota. rewrite Nat.add_0_r. lia.
    + intros n Hn. apply in_seq in Hn.
      replace (n - s =? 0)%nat with false; [reflexivity|].
      symmetry. apply Nat.eqb_neq. lia.
  - cbn [Nat.eqb].
    rewrite map_ext_in with
      (g := fun n => ((if (n - S s =? p)%nat then 1 else 0) * Z.of_nat n)%Z).
    2:{ intros n Hn. apply in_seq in Hn.
        replace (n - s)%nat with (S (n - S s)) by lia. reflexivity. }
    rewrite IH. change (S p <? S G)%nat with (p <? G)%nat.
    destruct (p <? G)%nat; [|reflexivity].
    replace (S s + p)%nat with (s + S p)%nat by lia. lia.
Qed.

(** X16.  [reverse_dummy_code] decodes every one-hot matrix, not only
    those [dummy_code] makes: when row i has its single 1 in column
    [p i] (counted from 0) and zeros elsewhere, entry i of the result is
    [p i + 1]. *)
Theorem reverse_dummy_code_one_hot N G (Y : matrix Z) (p : nat -> nat) :
  is_matrix N G Y -> (1 <= G)%nat ->
  (forall i, (i < N)%nat ->
     (p i < G)%nat
     /\ forall k, (k < G)%nat ->
          get 0%Z Y i k = if (k =? p i)%nat then 1%Z else 0%Z) ->
  reverse_dummy_code Y = Ok (map (fun i => Z.of_nat (p i + 1)) (seq 0 N)).
Proof.
  intros HY HG Hhot. rewrite (reverse_dummy_code_spec HY HG). f_equal.
  apply map_ext_in. intros i Hi. apply in_seq in Hi.
  destruct (Hhot i) as (Hp & Hrow); [lia|].
  unfold weighted_row_sum. simpl dadd. simpl dzero. simpl dscale.
  rewrite fold_left_Zadd, Z.add_0_l.
  rewrite map_ext_in with
    (g := fun n => ((if (n - 1 =? p i)%nat then 1 else 0) * Z.of_nat n)%Z).
  2:{ intros n Hn. apply in_seq in Hn. rewrite Hrow by lia. reflexivity. }
  rewrite weighted_unit.
  replace (p i <? G)%nat with true by (symmetry; apply Nat.ltb_lt; lia).
  f_equal. lia.
Qed.

Lemma reverse_dummy_code_one_hot_witness :
  is_matrix 2 3 Sample.H23
  /\ (forall i, (i < 2)%nat ->
        (Sample.H23_col i < 3)%nat
        /\ forall k, (k < 3)%nat ->
             get 0%Z Sample.H23 i k
             = if (k =? Sample.H23_col i)%nat then 1%Z else 0%Z)
  /\ reverse_dummy_code Sample.H23 = Ok [3; 1]%Z.
Proof.
  assert (HY : is_matrix 2 3 Sample.H23) by (repeat split; repeat constructor).
  assert (Hhot : forall i, (i < 2)%nat ->
            (Sample.H23_col i < 3)%nat
            /\ forall k, (k < 3)%nat ->
                 get 0%Z Sample.H23 i k
                 = if (k =? Sample.H23_col i)%nat then 1%Z else 0%Z).
  { intros [|[|i]] Hi; try lia; (split; [simpl; lia|]);
      intros [|[|[|k]]] Hk; try lia; reflexivity. }
  assert (HG : (1 <= 3)%nat) by lia.
  split; [exact HY|]. split; [exact Hhot|].
  exact (@reverse_dummy_code_one_hot 2 3 Sample.H23 Sample.H23_col HY HG Hhot).
Defined.

(** ** get_seed: one new generator per call *)

(** X17.  Every call of [get_seed] with an integer seed in range makes a
    generator of its own, also when the seed is the same as before: two
    calls give two different instances, each seeded as asked, and the
    later call leaves the earlier generator as it was; handing an instance
    back to [get_seed] returns that instance and makes nothing. *)
Theorem get_seed_new_instance_each_call (n m : Z) (st : rng_store) :
  (0 <= n <= 2 ^ 32 - 1)%Z -> (0 <= m <= 2 ^ 32 - 1)%Z ->
  exists i1 st1 i2 st2,
    get_seed (PyInt n) st = Ok (Instance i1, st1)
    /\ get_seed (PyInt m) st1 = Ok (Instance i2, st2)
    /\ i1 <> i2
    /\ nth_error st2 i1 = Some n /\ nth_error st2 i2 = Some m
    /\ get_seed (PyRandomState i1) st2 = Ok (Instance i1, st2).
Proof.
  intros Hn Hm.
  assert (Hr : forall k s, (0 <= k <= 2 ^ 32 - 1)%Z ->
             get_seed (PyInt k) s = Ok (Instance (length s), s ++ [k])).
  { intros k s Hk. unfold get_seed, RandomState; simpl.
    replace ((0 <=? k)%Z && (k <=? 4294967295)%Z) with true; auto.
    symmetry. apply andb_true_iff. split; apply Z.leb_le; lia. }
  exists (length st), (st ++ [n]), (length (st ++ [n])), ((st ++ [n]) ++ [m]).
  split; [now apply Hr|]. split; [now apply Hr|].
  rewrite length_app; simpl. split; [lia|]. split; [|split].
  - rewrite nth_error_app1 by (rewrite length_app; simpl; lia).
    now rewrite nth_error_app2, Nat.sub_diag by lia.
  - rewrite nth_error_app2 by (rewrite length_app; simpl; lia).
    rewrite length_app; simpl. now rewrite Nat.sub_diag.
  - reflexivity.
Qed.

Lemma get_seed_new_instance_each_call_witness :
  (0 <= 42 <= 2 ^ 32 - 1)%Z
  /\ exists i1 st1 i2 st2,
       get_seed (PyInt 42) [] = Ok (Instance i1, st1)
       /\ get_seed (PyInt 42) st1 = Ok (Instance i2, st2)
       /\ i1 <> i2
       /\ nth_error st2 i1 = Some 42%Z /\ nth_error st2 i2 = Some 42%Z
       /\ get_seed (PyRandomState i1) st2 = Ok (Instance i1, st2).
Proof.
  assert (H : (0 <= 42 <= 2 ^ 32 - 1)%Z) by lia.
  split; [exact H|].
  exact (@get_seed_new_instance_each_call 42%Z 42%Z [] H H).
Defined.

(** ** The store: a call returns a new object *)

Lemma agrees_new_object {V} (m : Store.M Store.ref) (mk : V -> Store.cell)
      (v : result V) s z :
  Store.agrees (m s) mk v s -> Store.preserves s m (Store.fresh s) ->
  v = Ok z ->
  exists r s', m s = (Ok r, s') /\ (length s <= r)%nat
               /\ nth_error s' r = Some (mk z) /\ Store.grows s s'.
Proof.
  intros Ha Hp ->. destruct Ha as (r & s' & E & G & Hr).
  exists r, s'. repeat split; auto.
  destruct (Hp s (extends_refl s)) as (_ & Hq).
  apply Hq. now rewrite E.
Qed.

(** X18.  Called on arrays in the store, [zscore], [normalize] and
    [_compute_xcorr] return a reference to an object that did not exist
    before the call (never the argument itself), holding the value the
    by-value function gives, and the arguments still hold their values. *)
Theorem store_calls_return_new_objects (s : Store.store) X Y x y :
  nth_error s X = Some (Store.F2 x) -> nth_error s Y = Some (Store.F2 y) ->
  (forall z, zscore x = Ok z ->
     exists r s', Store.zscore X s = (Ok r, s') /\ (length s <= r)%nat
                  /\ nth_error s' r = Some (Store.F2 z)
                  /\ nth_error s' X = Some (Store.F2 x))
  /\ (forall axis z, normalize x axis = Ok z ->
        exists r s', Store.normalize X axis s = (Ok r, s')
                     /\ (length s <= r)%nat
                     /\ nth_error s' r = Some (Store.F2 z)
                     /\ nth_error s' X = Some (Store.F2 x))
  /\ (forall z, _compute_xcorr x y = Ok z ->
        exists r s', Store._compute_xcorr X Y s = (Ok r, s')
                     /\ (length s <= r)%nat
                     /\ nth_error s' r = Some (Store.F2 z)
                     /\ nth_error s' X = Some (Store.F2 x)
                     /\ nth_error s' Y = Some (Store.F2 y)).
Proof.
  intros HX HY. split; [|split].
  - intros z Ez.
    destruct (@agrees_new_object _ (Store.zscore X) Store.F2 (zscore x) s z
                (zscore_computes s X HX) (@preserves_zscore s X) Ez) as (r & s' & E & Hr & Hv & G).
    exists r, s'. repeat split; auto. eapply grows_lookup; eauto.
  - intros axis z Ez.
    destruct (@agrees_new_object _ (Store.normalize X axis) Store.F2
                (normalize x axis) s z (normalize_computes s X axis HX)
                (@preserves_normalize s X axis) Ez) as (r & s' & E & Hr & Hv & G).
    exists r, s'. repeat split; auto. eapply grows_lookup; eauto.
  - intros z Ez.
    destruct (@agrees_new_object _ (Store._compute_xcorr X Y) Store.F2
                (_compute_xcorr x y) s z (compute_xcorr_computes s X Y HX HY)
                (@preserves_compute_xcorr s X Y) Ez)
      as (r & s' & E & Hr & Hv & G).
    exists r, s'. repeat split; auto; eapply grows_lookup; eauto.
Qed.

Lemma store_calls_return_new_objects_witness :
  exists r s',
    Store.zscore 0%nat [Store.F2 Sample.X22; Store.F2 Sample.Y21] = (Ok r, s')
    /\ (2 <= r)%nat
    /\ nth_error s' 0%nat = Some (Store.F2 Sample.X22).
Proof.
  assert (HX : is_matrix 2 2 Sample.X22) by (repeat split; repeat constructor).
  destruct (zscore_entries HX) as (Zm & E & _).
  destruct (proj1 (@store_calls_return_new_objects
                     [Store.F2 Sample.X22; Store.F2 Sample.Y21]
                     0%nat 1%nat Sample.X22 Sample.Y21 eq_refl eq_refl)
                  Zm E) as (r & s' & Er & Hr & _ & H0).
  exists r, s'. auto.
Defined.

(** X21.  The same for the functions on labels: called on arrays in the
    store, [xcorr] with a grouping, [dummy_code] and [reverse_dummy_code]
    return a reference to an object that did not exist before the call,
    holding the value the by-value function gives, and the arguments
    still hold their values. *)
Theorem store_coding_calls_return_new_objects
        (s : Store.store) X Y G D x y g d :
  nth_error s X = Some (Store.F2 x) -> nth_error s Y = Some (Store.F2 y) ->
  nth_error s G = Some (Store.I1 g) -> nth_error s D = Some (Store.I2 d) ->
  (forall z, xcorr x y (Some g) = Ok z ->
     exists r s', Store.xcorr X Y (Some G) s = (Ok r, s')
                  /\ (length s <= r)%nat
                  /\ nth_error s' r = Some (Store.F2 z)
                  /\ nth_error s' X = Some (Store.F2 x)
                  /\ nth_error s' Y = Some (Store.F2 y)
                  /\ nth_error s' G = Some (Store.I1 g))
  /\ (forall z, dummy_code g = Ok z ->
        exists r s', Store.dummy_code G s = (Ok r, s')
                     /\ (length s <= r)%nat
                     /\ nth_error s' r = Some (Store.I2 z)
                     /\ nth_error s' G = Some (Store.I1 g))
  /\ (forall v, reverse_dummy_code d = Ok v ->
        exists r s', Store.reverse_dummy_code D s = (Ok r, s')
                     /\ (length s <= r)%nat
                     /\ nth_error s' r = Some (Store.I1 v)
                     /\ nth_error s' D = Some (Store.I2 d)).
Proof.
  intros HX HY HG HD. split; [|split].
  - intros z Ez.
    assert (Hc : Store.computes (Store.xcorr X Y (Some G)) Store.F2
                                (xcorr x y (Some g)) s).
    { apply (@xcorr_computes s X Y x y (Some (G, g)) HX HY).
      intros gr g' Heq. inversion Heq; subst. exact HG. }
    destruct (@agrees_new_object _ (Store.xcorr X Y (Some G)) Store.F2
                (xcorr x y (Some g)) s z Hc
                (@preserves_xcorr s X Y (Some G)) Ez)
      as (r & s' & E & Hr & Hv & Gr).
    exists r, s'. repeat split; auto; eapply grows_lookup; eauto.
  - intros z Ez.
    destruct (@agrees_new_object _ (Store.dummy_code G) Store.I2
                (dummy_code g) s z (dummy_code_computes s G HG)
                (@preserves_dummy_code s G) Ez)
      as (r & s' & E & Hr & Hv & Gr).
    exists r, s'. repeat split; auto; eapply grows_lookup; eauto.
  - intros v Ev.
    destruct (@agrees_new_object _ (Store.reverse_dummy_code D) Store.I1
                (reverse_dummy_code d) s v
                (reverse_dummy_code_computes s D HD)
                (@preserves_reverse_dummy_code s D) Ev)
      as (r & s' & E & Hr & Hv & Gr).
    exists r, s'. repeat split; auto; eapply grows_lookup; eauto.
Qed.

Lemma store_coding_calls_return_new_objects_witness :
  exists r s',
    Store.dummy_code 2%nat
      [Store.F2 Sample.X41; Store.F2 Sample.Y41; Store.I1 Sample.g5;
       Store.I2 Sample.I23] = (Ok r, s')
    /\ (4 <= r)%nat
    /\ nth_error s' 2%nat = Some (Store.I1 Sample.g5).
Proof.
  destruct (proj1 (proj2 (@store_coding_calls_return_new_objects
                     [Store.F2 Sample.X41; Store.F2 Sample.Y41;
                      Store.I1 Sample.g5; Store.I2 Sample.I23]
                     0%nat 1%nat 2%nat 3%nat
                     Sample.X41 Sample.Y41 Sample.g5 Sample.I23
                     eq_refl eq_refl eq_refl eq_refl))
                  _ dummy_code_g5) as (r & s' & Er & Hr & _ & H0).
  exists r, s'. auto.
Defined.
